(* ===== verification/_CoqProject ===== *)
-Q . S2P
Prelude.v
Colors.v
Tabs.v
Navigation.v
Animation.v
CapsuleBar.v
Gesture.v
Layout.v
Scheduler.v
Home.v
Refinement.v
Doubles.v
