(* ===== verification/Prelude.v ===== *)
(** * A verification development of the translate app's tab-bar front end

    ** The program

    The repository is the front end of a React Native (Expo) translation
    app.  Four source files:
    - [src/constants/Colors.ts]: the [Colors] table, a light and a dark
      palette of named colour roles.
    - [src/components/FloatigCapsuleBar.tsx]: the custom tab bar
      [FloatingCapsuleTabBar].  It keeps five reanimated shared values
      ([capsuleScaleX], [capsuleScaleY], [isDragging], [translateX],
      [startX]), renders one [TouchableOpacity] per entry of [TABS] and a
      draggable "capsule" that marks the active tab.  A pan gesture moves
      the capsule ([onBegin], [onStart], [onUpdate], [onEnd]); a tap on a
      tab ([onPress]) animates the capsule to that tab.  Both call the
      navigator's [navigate].  A style sheet fixes the geometry.
    - [src/app/(tabs)/_layout.tsx]: [TabLayout] registers the four screens
      with the navigator, in the order [index], [camera], [conversation],
      [favorites], and installs the capsule bar as the tab bar.
    - [src/app/(tabs)/index.tsx]: [HomeScreen], a scroll view with a
      title, padded below the top safe-area inset and, at the bottom of
      its content, by [useBottomTabOverflow()]; the capsule bar floats
      over it.

    The bar and the navigator interact through two channels: the bar reads
    the navigator's [state.index] (to tint the active icon and to place the
    capsule at mount) and calls [navigation.navigate(route)]; from a
    gesture worklet the call goes through [runOnJS], i.e. it is queued and
    runs later on the JavaScript thread.

    ** The files

    - [Prelude] (this file): JavaScript numbers as rationals [Q] with
      [Math.min], [Math.max], [Math.round], array indexing and
      [Array.prototype.map] with index; the two clamp compositions the
      code writes; the closure [star] of a step relation with the
      invariance principle, termination by a [nat] measure
      ([measure_wf], [normal_form_exists], via
      [well_founded_lt_compat]) and the unique-outcome lemma
      [star_outcome]; the [capsule] hint database, the [qminmax],
      [qabs_split] and [split_conj] tactics, [Proper] instances for
      rewriting with [==] under the JavaScript operations, and the
      nearest-integer lemma behind the selection theorem.
    - [Colors]: module [Theme], [Colors.ts] as a record per colour scheme,
      and [resolveScheme] for [Colors[useColorScheme() || "light"]].
    - [Tabs]: module [Routes], the [TABS] array over the literal-union type
      [Tab] (with [EqDecision] and [Finite] instances from stdpp),
      [tabMeta], and the screens and options of [_layout.tsx].
    - [Navigation]: module [Nav], the interface the bar relies on, the type
      class [Navigator] ([state.index], route names, [navigate]) with its
      laws [NavigatorLaws]; [TabRouter] implements it.
    - [Animation]: module [Reanimated], shared values, [withTiming],
      [withSequence], assignment, and animation frames as a step relation.
    - [CapsuleBar]: module [Capsule], the component's state record
      [BarState] and each handler of [FloatigCapsuleBar.tsx] as a function
      of it ([mount], [onBegin], [onStart], [onUpdate], [onEnd] with its
      [snap_index] and [rest_offset], [onPress], [render]), in a section
      over [SCREEN_WIDTH]; [CapsuleFacts] holds their theorems.
    - [Gesture]: module [System], the whole system as a [World] (bar,
      navigator, recogniser phase, queue of [runOnJS] calls), the step
      relation [step], the executable interpreter [exec]/[run] proved to
      follow it, the invariant [inv] and its preservation.
    - [Layout]: module [Styles], the numeric entries of [styles] and the
      row geometry they give (content width, tab edges, capsule edges,
      with the [scaleX] transform about the capsule's centre).
    - [Scheduler]: module [Quiesce], the work a handler leaves behind (the
      [runOnJS] queue and the animation segments) as the relation
      [internal], a sub-relation of [step], with its measure
      [pending_work] and the world [outcome] every completion ends in;
      what a release leaves, the order of a tap against a queued call,
      and navigation from outside the bar.
    - [Refinement]: module [BarSpec], the contract of section 4.1 of the
      specification as a state machine over an active tab and a capsule
      offset ([spec_step] for a tap and for a drag), the events that
      carry out each interaction, and the relation [refines] between a
      contract state and a world at rest.
    - [Doubles]: module [JS], the slot arithmetic of the bar ([TAB_WIDTH],
      [onUpdate]'s clamp, [onEnd]'s selection, the resting offset) on
      primitive binary64 floats, the numbers the code computes with, and
      the evaluated check of the rational model against it.
    - [Home]: module [Home], [HomeScreen] of [index.tsx] as a function from
      its two hook results to the props and styles it renders, and where
      its scroll content ends against the floating bar.

    ** What the theorems show (claims C1 to C17 of the manifest)

    - Safety of the bar in every reachable state (C1, [reachable_inv]):
      proved by rule induction over [step] from [inv_init] and [inv_step].
    - The handlers one by one: [onEnd] selects the slot whose grid
      position [i * TAB_WIDTH] is nearest, which is not always the slot
      whose resting position [(i * TAB_WIDTH) / 1.1] is nearest (C2), and
      never navigates to [undefined] (C4); [onUpdate] clamps to the row
      (C3); [onPress] navigates and pulses, also on the active tab (C5);
      resting offsets select their own slot again (C7); rendering tints
      exactly the active tab (C10).
    - Behaviour of the composed system: an un-activated touch leaves the
      capsule enlarged (C6, a bug); after a release, the pending work can
      always be completed and every completion order ends with navigator
      and capsule on [onEnd]'s slot, whatever was queued before (C13,
      liveness; [internal] terminates by the measure [pending_work]); a
      tap handled between a release and the call the release queued is
      overtaken by it (C14); navigation the bar did not cause leaves the
      capsule where it was, for every world and every tab (C9).
    - Refinement (C17, [bar_refines_spec]): a forward simulation, by
      induction on the interactions, from [tap_refines] and
      [drag_refines]: every sequence of taps and drags the contract of
      the specification accepts is matched by a run of the model that
      ends where the contract says.
    - Geometry: the mount offset is not the resting offset (C8) and
      drifts 10.9 points per slot against the tabs (C12); the resting
      offset tracks the tabs only on a 495.6-point window (C11); dragged
      to the end of the row the capsule overhangs the bar on every window
      narrower than 490 points (C16).
    - The home screen under the bar: its scrolled-to-end content is clear
      of the bar exactly when it fits above it or [useBottomTabOverflow()]
      is at least 91 points (C15).

    ** Modelling choices, bounds and fuel

    - Numbers.  JavaScript numbers are IEEE doubles; the model uses exact
      rationals [Q].  Each event does one addition, one multiplication and
      two divisions, and the properties are about ranges and nearest
      integers, where double rounding moves a result by at most an ulp;
      the theorems speak of the values the code denotes.  [Doubles]
      checks the choice by evaluation: on eleven common widths the double
      computation of the selection gives the rational model's slot at
      every whole-point offset.  [Math.round] is
      [floor (x + 1/2)], as ECMAScript defines it (ties go up).
    - The window width [Dimensions.get('window').width] is the section
      variable [SCREEN_WIDTH], assumed above 16 points (the two paddings)
      where a theorem needs [TAB_WIDTH > 0]; at [TAB_WIDTH = 0] the code
      divides by zero.  Witnesses use a 390-point window.
    - No fuel: every function is structural ([run] over the event list,
      [settle] over the pending segments, [index_of] and [js_map] over
      lists), so every run computes and the theorems state that runs
      succeed, not only what they return when they do.
    - Animations.  A shared value holds its current value and the queue of
      timing segments still to run.  Assigning a number cancels the
      queue; assigning [withTiming]/[withSequence] replaces it.  A frame
      moves the value any fraction of the way to the head target, or
      completes the head segment: every monotone easing curve, the default
      [Easing.inOut(quad)] included, is such a path.  Durations are kept as
      data; time is not modelled.  Completion is therefore stated for
      segment completions and queued calls ([internal]): partial frames
      leave the resting value unchanged, and how many of them a segment
      takes is a matter of its duration and the display's frame rate.
    - Gestures.  react-native-gesture-handler calls [onBegin] when a touch
      lands, [onStart] when the pan activates, [onUpdate] per move and
      [onEnd] only if the pan had become active.  A touch that never
      activates fails, and only [onFinalize] (which the code does not
      register) would run.
    - The navigator is a library: the bar's theorems use only the
      [NavigatorLaws] of the class.  The absolute-positioning origin of the
      capsule is a section variable of [Layout]: the geometry theorems hold
      for any origin.

    ** Not modelled

    [HomeScreen]'s animated ref [scrollRef] (created and attached, never
    read) and the text styles of [ThemedText]; the value
    [useBottomTabOverflow()] returns (its module is not in the sources:
    the theorems hold for every value); the icon components, [HapticTab],
    [TabBarBackground] and the [useColorScheme] hook, which are imported from files not in the
    sources (the hook's result is an optional scheme); the scale transform's
    effect on the drawn edges; the time course of animations.

    ** Plan for later work

    Extend the geometry to the capsule's width against the slot width.
*)

From Stdlib Require Import QArith Qround Qminmax Qabs Lqa Lia ZArith List.
From Stdlib Require Import Setoid Morphisms Wf_nat.
Import ListNotations.

Declare Scope js_scope.
Delimit Scope js_scope with js.

(** ** JavaScript numbers *)

Local Open Scope Q_scope.

(** [Math.min] and [Math.max] on two (non-NaN) numbers. *)
Definition Math_min (a b : Q) : Q := Qmin a b.
Definition Math_max (a b : Q) : Q := Qmax a b.

(** [Math.round]: the integer nearest to [x], ties towards [+oo]. *)
Definition Math_round (x : Q) : Z := Qfloor (x + (1 # 2)).

(** [arr[i]] for an integer-valued index: [undefined] ([None]) out of range. *)
Definition js_index {A : Type} (l : list A) (i : Z) : option A :=
  if (0 <=? i)%Z then nth_error l (Z.to_nat i) else None.

Notation "l .[ i ]" := (js_index l i) (at level 1, left associativity) : js_scope.

(** The position of an element in a list (the [indexOf] of the code's
    routers); [None] when absent. *)
Fixpoint index_of {A : Type} (eqb : A -> A -> bool) (x : A) (l : list A)
  : option nat :=
  match l with
  | [] => None
  | y :: l' => if eqb x y then Some 0%nat
               else option_map S (index_of eqb x l')
  end.

(** [arr.map((x, i) => f(x, i))]. *)
Fixpoint map_indexed_from {A B : Type} (f : A -> nat -> B) (k : nat) (l : list A)
  : list B :=
  match l with
  | [] => []
  | x :: l' => f x k :: map_indexed_from f (S k) l'
  end.

Definition js_map {A B : Type} (f : A -> nat -> B) (l : list A) : list B :=
  map_indexed_from f 0 l.

(** The integer [n] as a JavaScript number. *)
Definition Qnat (n : nat) : Q := inject_Z (Z.of_nat n).

(** The two clamp compositions of the code.  [onUpdate] writes
    [Math.min(Math.max(newX, minX), maxX)]. *)
Definition clampQ (lo hi x : Q) : Q := Math_min (Math_max x lo) hi.

(** [onEnd] writes [Math.max(0, Math.min(TABS.length - 1, index))]. *)
Definition clampZ (lo hi i : Z) : Z := Z.max lo (Z.min hi i).

(** ** Step relations *)

(** Zero or more steps of [R]. *)
Inductive star {A : Type} (R : A -> A -> Prop) : A -> A -> Prop :=
| star_refl a : star R a a
| star_step a b c : R a b -> star R b c -> star R a c.

(** No step of [R] leaves [a]. *)
Definition irreducible {A : Type} (R : A -> A -> Prop) (a : A) : Prop :=
  forall b, ~ R a b.

(** ** Generic lemmas on rationals, min/max and rounding *)

(** Replace every [Qmin]/[Qmax] of the goal by a fresh name constrained
    by its specification, so that [lra] can finish. *)
Ltac qminmax :=
  unfold Math_min, Math_max in *;
  repeat match goal with
  | _ : context [Qmin ?a ?b] |- _ =>
      let m := fresh "m" in let Hm := fresh "Hm" in
      pose proof (Q.min_spec_le a b) as Hm; set (m := Qmin a b) in *;
      clearbody m
  | _ : context [Qmax ?a ?b] |- _ =>
      let m := fresh "m" in let Hm := fresh "Hm" in
      pose proof (Q.max_spec_le a b) as Hm; set (m := Qmax a b) in *;
      clearbody m
  | |- context [Qmin ?a ?b] =>
      let m := fresh "m" in let Hm := fresh "Hm" in
      pose proof (Q.min_spec_le a b) as Hm; set (m := Qmin a b) in *;
      clearbody m
  | |- context [Qmax ?a ?b] =>
      let m := fresh "m" in let Hm := fresh "Hm" in
      pose proof (Q.max_spec_le a b) as Hm; set (m := Qmax a b) in *;
      clearbody m
  end.

#[export] Instance Math_min_Proper : Proper (Qeq ==> Qeq ==> Qeq) Math_min.
Proof. unfold Math_min. apply Q.min_compat. Qed.

#[export] Instance Math_max_Proper : Proper (Qeq ==> Qeq ==> Qeq) Math_max.
Proof. unfold Math_max. apply Q.max_compat. Qed.

#[export] Instance Math_round_Proper : Proper (Qeq ==> eq) Math_round.
Proof. intros x y H. unfold Math_round. rewrite H. reflexivity. Qed.

Lemma Qnat_nonneg (n : nat) : 0 <= Qnat n.
Proof. unfold Qnat. change 0 with (inject_Z 0). rewrite <- Zle_Qle. lia. Qed.

Lemma Qnat_le (m n : nat) : (m <= n)%nat -> Qnat m <= Qnat n.
Proof. intros. unfold Qnat. rewrite <- Zle_Qle. lia. Qed.

Lemma Math_round_spec (x : Q) :
  inject_Z (Math_round x) - (1 # 2) <= x /\ x < inject_Z (Math_round x) + (1 # 2).
Proof.
  unfold Math_round. pose proof (Qfloor_le (x + (1 # 2))).
  pose proof (Qlt_floor (x + (1 # 2))). rewrite inject_Z_plus in H0.
  change (inject_Z 1) with 1 in H0. split; lra.
Qed.

(** [Math.round] is characterised by its half-open interval. *)
Lemma Math_round_unique (z : Z) (x : Q) :
  inject_Z z - (1 # 2) <= x -> x < inject_Z z + (1 # 2) -> Math_round x = z.
Proof.
  intros Hlo Hhi. destruct (Math_round_spec x) as [Rlo Rhi].
  assert (inject_Z z < inject_Z (Math_round x) + 1) as A by lra.
  assert (inject_Z (Math_round x) < inject_Z z + 1) as B by lra.
  change 1 with (inject_Z 1) in A, B.
  rewrite <- inject_Z_plus, <- Zlt_Qlt in A, B. lia.
Qed.





Lemma clampQ_bounds (lo hi x : Q) : lo <= hi -> lo <= clampQ lo hi x <= hi.
Proof. intros. unfold clampQ. qminmax; lra. Qed.

Lemma clampQ_id (lo hi x : Q) : lo <= x <= hi -> clampQ lo hi x == x.
Proof. intros. unfold clampQ. qminmax; lra. Qed.

Lemma clampQ_low (lo hi x : Q) : lo <= hi -> x <= lo -> clampQ lo hi x == lo.
Proof. intros. unfold clampQ. qminmax; lra. Qed.

Lemma clampQ_high (lo hi x : Q) : lo <= hi -> hi <= x -> clampQ lo hi x == hi.
Proof. intros. unfold clampQ. qminmax; lra. Qed.


Lemma clampZ_bounds (lo hi i : Z) : (lo <= hi)%Z -> (lo <= clampZ lo hi i <= hi)%Z.
Proof. unfold clampZ. lia. Qed.

Lemma inject_Z_le (a b : Z) : (a <= b)%Z -> inject_Z a <= inject_Z b.
Proof. now rewrite Zle_Qle. Qed.

(** Split the conjunctions of the goal, without unfolding definitions. *)
Ltac split_conj := repeat match goal with |- _ /\ _ => split end.

(** Split every [Qabs] of the goal on the sign of its argument. *)
Ltac qabs_split :=
  repeat match goal with
  | |- context [Qabs ?a] =>
      destruct (Qlt_le_dec a 0);
      [rewrite (Qabs_neg a) by lra | rewrite (Qabs_pos a) by lra]
  end.

(** Rounding and then clamping to [0..n] picks an integer of [0..n]
    nearest to [y]. *)
Lemma clamp_round_nearest (y : Q) (n j : Z) :
  (0 <= j <= n)%Z ->
  Qabs (y - inject_Z (clampZ 0 n (Math_round y))) <= Qabs (y - inject_Z j).
Proof.
  intros Hj. destruct (Math_round_spec y) as [Hlo Hhi].
  unfold clampZ. set (r := Math_round y) in *.
  destruct (Z.lt_ge_cases r 0) as [Hr|Hr];
    [|destruct (Z.le_gt_cases r n) as [Hr'|Hr']].
  - replace (Z.max 0 (Z.min n r)) with 0%Z by lia.
    pose proof (inject_Z_le r (-1) ltac:(lia)).
    pose proof (inject_Z_le 0 j ltac:(lia)).
    change (inject_Z 0) with 0 in *. change (inject_Z (-1)) with (-1) in *.
    qabs_split; lra.
  - replace (Z.max 0 (Z.min n r)) with r by lia.
    destruct (Z.lt_total j r) as [Hjr|[Hjr|Hjr]].
    + pose proof (inject_Z_le (j + 1) r ltac:(lia)).
      rewrite inject_Z_plus in *. change (inject_Z 1) with 1 in *.
      qabs_split; lra.
    + subst. lra.
    + pose proof (inject_Z_le (r + 1) j ltac:(lia)).
      rewrite inject_Z_plus in *. change (inject_Z 1) with 1 in *.
      qabs_split; lra.
  - replace (Z.max 0 (Z.min n r)) with n by lia.
    pose proof (inject_Z_le (n + 1) r ltac:(lia)).
    pose proof (inject_Z_le j n ltac:(lia)).
    rewrite inject_Z_plus in *. change (inject_Z 1) with 1 in *.
    qabs_split; lra.
Qed.

(** A convex combination stays between its end points. *)
Lemma Qconvex_between (lo hi v t l : Q) :
  lo <= v <= hi -> lo <= t <= hi -> 0 <= l <= 1 -> lo <= v + l * (t - v) <= hi.
Proof. intros. nra. Qed.

Lemma nth_error_map_indexed_from {A B : Type} (f : A -> nat -> B) (l : list A) (k i : nat) :
  nth_error (map_indexed_from f k l) i = option_map (fun x => f x (k + i)%nat) (nth_error l i).
Proof.
  revert k i. induction l as [|x l IH]; intros k [|i]; cbn; try reflexivity.
  - now rewrite Nat.add_0_r.
  - rewrite IH. now rewrite Nat.add_succ_r.
Qed.

Lemma nth_error_js_map {A B : Type} (f : A -> nat -> B) (l : list A) (i : nat) :
  nth_error (js_map f l) i = option_map (fun x => f x i) (nth_error l i).
Proof. apply nth_error_map_indexed_from. Qed.

Lemma length_js_map {A B : Type} (f : A -> nat -> B) (l : list A) :
  length (js_map f l) = length l.
Proof.
  unfold js_map. generalize 0%nat as k.
  induction l as [|x l IH]; intros k; cbn; [reflexivity|]. now rewrite IH.
Qed.

Lemma js_index_nonneg {A : Type} (l : list A) (i : Z) :
  (0 <= i)%Z -> js_index l i = nth_error l (Z.to_nat i).
Proof. intros H. unfold js_index. now rewrite (proj2 (Z.leb_le 0 i) H). Qed.


Section Star.
Context {A : Type} (R : A -> A -> Prop).

Lemma star_one a b : R a b -> star R a b.
Proof. eauto using star. Qed.

Lemma star_trans a b c : star R a b -> star R b c -> star R a c.
Proof. induction 1; eauto using star. Qed.

(** Invariance: a property preserved by every step holds along [star]. *)
Lemma star_invariant (P : A -> Prop) :
  (forall a b, P a -> R a b -> P b) -> forall a b, star R a b -> P a -> P b.
Proof. intros Hstep a b H. induction H; eauto. Qed.

(** ** Termination by a measure *)

Section Measure.
Variable m : A -> nat.
Hypothesis decreases : forall a b, R a b -> (m b < m a)%nat.

Lemma measure_wf : well_founded (fun b a => R a b).
Proof.
  apply (Wf_nat.well_founded_lt_compat _ m). intros b a. apply decreases.
Qed.

(** Where a step can always be found unless [a] is irreducible, every
    [a] reaches an irreducible element. *)
Lemma normal_form_exists :
  (forall a, (exists b, R a b) \/ irreducible R a) ->
  forall a, exists b, star R a b /\ irreducible R b.
Proof.
  intros Hdec a. induction a as [a IH] using (well_founded_ind measure_wf).
  destruct (Hdec a) as [[b Hab]|Hirr].
  - destruct (IH b Hab) as (c & Hbc & Hc). eauto using star.
  - eauto using star.
Qed.
End Measure.

(** ** Unique outcome *)

(** Where every step preserves [f] and [f] is the identity on
    irreducible elements, every irreducible element reached from [a] is
    [f a]. *)
Lemma star_outcome (f : A -> A) :
  (forall a b, R a b -> f b = f a) -> (forall a, irreducible R a -> f a = a) ->
  forall a b, star R a b -> irreducible R b -> b = f a.
Proof.
  intros Hpres Hfix a b Hs Hb. induction Hs as [a|a b c Hab _ IH].
  - symmetry. now apply Hfix.
  - rewrite (IH Hb). now apply Hpres.
Qed.
End Star.

Create HintDb capsule.
#[export] Hint Resolve clampQ_bounds clampZ_bounds Qconvex_between : capsule.
#[export] Hint Resolve Qnat_nonneg Qnat_le star_refl star_one : capsule.
