(* ===== verification/Colors.v ===== *)
(** * The colour table of [src/constants/Colors.ts]

    [Colors] maps a colour scheme ([light] or [dark]) to a palette: a
    record with one field per colour role of the source object.  The
    file also models how the components pick the palette
    ([Colors[useColorScheme() || "light"]]) and the fact the tab bar's
    rendering relies on: the focused and unfocused tints differ. *)

From Stdlib Require Import String List.
From S2P Require Import Prelude.
Import ListNotations.
Open Scope string_scope.

Module Theme.

Definition tintColorLight : string := "#03C0D4".
Definition tintColorDark : string := "#fff".

(** The shape shared by [Colors.light] and [Colors.dark]. *)
Record Palette := mkPalette {
  text : string;
  background : string;
  tint : string;
  icon : string;
  tabIconDefault : string;
  tabIconSelected : string;
  nav : string;
  nav_border : string;
  nav_icons : string;
  nav_icons_tinted : string;
  nav_capsule : string
}.

(** The keys of [Colors]: what [useColorScheme()] returns when set. *)
Inductive ColorSchemeName := light | dark.

Definition ColorSchemeName_eq_dec (a b : ColorSchemeName) : {a = b} + {a <> b}.
Proof. decide equality. Defined.

Definition Colors (c : ColorSchemeName) : Palette :=
  match c with
  | light => {|
      text := "#11181C";
      background := "#F2F1F7";
      tint := tintColorLight;
      icon := "#687076";
      tabIconDefault := "#687076";
      tabIconSelected := tintColorLight;
      nav := "#FAF9FE";
      nav_border := "white";
      nav_icons := "#000000";
      nav_icons_tinted := "#03C0D4";
      nav_capsule := "#E7E6EC" |}
  | dark => {|
      text := "#ECEDEE";
      background := "#000000";
      tint := tintColorDark;
      icon := "#9BA1A6";
      tabIconDefault := "#9BA1A6";
      tabIconSelected := tintColorDark;
      nav := "#181818";
      nav_border := "#242424";
      nav_icons := "#F3F3F3";
      nav_icons_tinted := "#02D3D8";
      nav_capsule := "#383838" |}
  end.

(** [Colors[useColorScheme() || "light"]] (the bar) and
    [Colors[colorScheme ?? 'light']] (the layout): the hook yields a
    scheme or [null]/[undefined], and both operators fall back to
    [light] on the latter. *)
Definition resolveScheme (s : option ColorSchemeName) : ColorSchemeName :=
  match s with
  | Some c => c
  | None => light
  end.

Definition palette_of (s : option ColorSchemeName) : Palette :=
  Colors (resolveScheme s).

End Theme.

Module ThemeFacts.
Import Theme.

(** The focused and unfocused icon tints differ in both schemes, so the
    active tab is visible whatever scheme is resolved. *)
Lemma nav_icons_tinted_distinct (s : option ColorSchemeName) :
  nav_icons_tinted (palette_of s) <> nav_icons (palette_of s).
Proof. destruct s as [[|]|]; vm_compute; discriminate. Qed.

End ThemeFacts.
