(* ===== verification/Tabs.v ===== *)
(** * The tabs: [TABS], [tabMeta] and the screens of [_layout.tsx]

    [TABS] (src/components/FloatigCapsuleBar.tsx) is a [const] tuple of
    four route names; its element type is the string-literal union that
    [Tab] models, and [tab_name] gives each literal.  [tabMeta] gives a
    label and an icon key per tab.  [TabLayout] (src/app/(tabs)/_layout.tsx)
    registers one screen per route with a title and an icon component.
    The bar and the navigator agree on positions only because the two
    lists are in the same order ([NavFacts.index_of_TABS]). *)

From stdpp Require Import base list finite strings sets.
From S2P Require Import Prelude Colors.

Module Routes.

(** [(typeof TABS)[number]]. *)
Inductive Tab := index | camera | conversation | favorites.

#[export] Instance Tab_eq_dec : EqDecision Tab.
Proof. solve_decision. Defined.

(** [const TABS = ['index', 'camera', 'conversation', 'favorites']]. *)
Definition TABS : list Tab := [index; camera; conversation; favorites].

(** The string literal of each tab: the route name the navigator knows. *)
Definition tab_name (t : Tab) : string :=
  match t with
  | index => "index"
  | camera => "camera"
  | conversation => "conversation"
  | favorites => "favorites"
  end.

(** [keyof typeof icons] as far as [tabMeta] uses it. *)
Inductive IconKey := ic_translate | ic_camera | ic_conversation | ic_favorites.

#[export] Instance IconKey_eq_dec : EqDecision IconKey.
Proof. solve_decision. Defined.

Record TabMetaEntry := mkMeta { label : string; icon : IconKey }.

Definition tabMeta (t : Tab) : TabMetaEntry :=
  match t with
  | index => mkMeta "Translate" ic_translate
  | camera => mkMeta "Camera" ic_camera
  | conversation => mkMeta "Conversation" ic_conversation
  | favorites => mkMeta "Favorites" ic_favorites
  end.

(** ** The layout of [_layout.tsx] *)

(** The icon components imported from [@/components/icons] (the source
    spells the third one [Converesation]). *)
Inductive IconComponent := Translate | Camera | Converesation | Favorites.

Record ScreenOptions := mkScreen {
  screen_name : string;
  title : string;
  tabBarIcon : IconComponent
}.

Record TabsOptions := mkTabsOptions {
  tabBarActiveTintColor : string;
  headerShown : bool
}.

(** The [<Tabs.Screen>] children, in order. *)
Definition layout_screens : list ScreenOptions :=
  [mkScreen "index" "Translation" Translate;
   mkScreen "camera" "Camera" Camera;
   mkScreen "conversation" "Conversation" Converesation;
   mkScreen "favorites" "Favorites" Favorites].

(** [screenOptions]; [tabBarButton] and [tabBarBackground] are imported
    components outside the sources. *)
Definition TabLayout_screenOptions (s : option Theme.ColorSchemeName) : TabsOptions :=
  mkTabsOptions (Theme.tint (Theme.palette_of s)) false.

(** The route names the navigator is created with. *)
Definition layout_routes : list string := map screen_name layout_screens.

End Routes.

Module RoutesFacts.
Import Routes.

Lemma TABS_NoDup : NoDup TABS.
Proof. apply (bool_decide_unpack _). vm_compute. exact I. Qed.

(** [TABS] lists every tab exactly once: with [TABS_NoDup] this makes it
    the enumeration of the [Tab] type. *)
Lemma TABS_complete (t : Tab) : t ∈ TABS.
Proof. unfold TABS. destruct t; set_solver. Qed.

#[export] Instance Tab_finite : Finite Tab :=
  {| enum := TABS; NoDup_enum := TABS_NoDup; elem_of_enum := TABS_complete |}.

End RoutesFacts.
