(* ===== verification/Navigation.v ===== *)
(** * The navigator the tab bar drives

    The bar receives [state] and [navigation] from React Navigation's
    bottom-tab navigator ([BottomTabBarProps]): it reads [state.index] and
    calls [navigation.navigate(name)].  The navigator is a library, not
    code of this repository; what the bar relies on is stated here as an
    interface, the type class [Navigator] with the laws [NavigatorLaws],
    and the bar's theorems are proved against it.  [TabRouter] is the tab
    router's documented behaviour (navigate to a registered route selects
    it, an unknown name leaves the state alone) and discharges the laws. *)

From Stdlib Require Import String List Lia.
From S2P Require Import Prelude Tabs.
Import ListNotations.

Module Nav.

Class Navigator (S : Type) := {
  nav_index : S -> nat;
  nav_routeNames : S -> list string;
  navigate : string -> S -> S
}.

Definition route_position {S} `{Navigator S} (r : string) (s : S) : option nat :=
  index_of String.eqb r (nav_routeNames s).

Class NavigatorLaws (S : Type) `{Navigator S} := {
  navigate_known s r i :
    route_position r s = Some i -> nav_index (navigate r s) = i;
  navigate_unknown s r :
    route_position r s = None -> navigate r s = s;
  navigate_routeNames s r :
    nav_routeNames (navigate r s) = nav_routeNames s
}.

(** A call [navigation.navigate(TABS[i] as never)] whose argument may be
    [undefined]: an action no route handles, which leaves the state
    unchanged. *)
Definition navigate_js {S} `{Navigator S} (r : option string) (s : S) : S :=
  match r with
  | Some name => navigate name s
  | None => s
  end.

(** ** The tab router *)

Record TabNavState := mkTabNav { tn_index : nat; tn_routeNames : list string }.

Definition tab_navigate (r : string) (s : TabNavState) : TabNavState :=
  match index_of String.eqb r (tn_routeNames s) with
  | Some i => mkTabNav i (tn_routeNames s)
  | None => s
  end.

#[export] Instance TabRouter : Navigator TabNavState :=
  {| nav_index := tn_index; nav_routeNames := tn_routeNames;
     navigate := tab_navigate |}.

#[export] Instance TabRouter_laws : NavigatorLaws TabNavState.
Proof.
  split; intros s r; cbn; unfold route_position, tab_navigate; cbn.
  - intros i ->. reflexivity.
  - intros ->. reflexivity.
  - destruct (index_of _ _ _); reflexivity.
Qed.

(** The navigator [TabLayout] creates, focused on [i]. *)
Definition layout_navigator (i : nat) : TabNavState :=
  mkTabNav i Routes.layout_routes.

End Nav.

Module NavFacts.
Import Nav.

(** Position [i] of [TABS] is position [i] of the layout's routes. *)
Lemma index_of_TABS (i : nat) (t : Routes.Tab) :
  nth_error Routes.TABS i = Some t ->
  index_of String.eqb (Routes.tab_name t) Routes.layout_routes = Some i.
Proof.
  destruct i as [|[|[|[|i]]]]; cbn; intros H; inversion H; try reflexivity.
  destruct i; discriminate.
Qed.

Section AgainstInterface.
Context {S : Type} `{NavigatorLaws S}.

(** Navigating to the route of [TABS[i]] focuses position [i], on any
    navigator that satisfies the laws and holds the layout's routes. *)
Lemma navigate_TABS (s : S) (i : nat) (t : Routes.Tab) :
  nav_routeNames s = Routes.layout_routes ->
  nth_error Routes.TABS i = Some t ->
  nav_index (navigate (Routes.tab_name t) s) = i /\
  nav_routeNames (navigate (Routes.tab_name t) s) = Routes.layout_routes.
Proof.
  intros Hr Ht. split.
  - apply navigate_known. unfold route_position. rewrite Hr.
    now apply index_of_TABS.
  - now rewrite navigate_routeNames.
Qed.

(** Every navigation keeps the focused index within the routes. *)
Lemma navigate_index_bound (s : S) (r : string) :
  (nav_index s < length (nav_routeNames s))%nat ->
  (nav_index (navigate r s) < length (nav_routeNames (navigate r s)))%nat.
Proof.
  intros Hs. rewrite navigate_routeNames.
  destruct (route_position r s) as [i|] eqn:E.
  - rewrite (navigate_known _ _ _ E). unfold route_position in E.
    revert i E. clear Hs. generalize (nav_routeNames s) as l.
    induction l as [|y l IH]; cbn; intros i E; [discriminate|].
    destruct (String.eqb r y); [injection E as <-; lia|].
    destruct (index_of _ r l) as [j|] eqn:F; cbn in E; [|discriminate].
    injection E as <-. specialize (IH j eq_refl). lia.
  - now rewrite (navigate_unknown _ _ E).
Qed.
End AgainstInterface.
End NavFacts.
