(* ===== verification/Animation.v ===== *)
(** * Reanimated shared values and timing animations

    The bar's state lives in [useSharedValue] cells.  Assigning a number
    to [sv.value] sets it and cancels a running animation; assigning
    [withTiming(v, {duration})] or [withSequence(a, b)] starts that
    animation from the current value.  A [SharedValue] here is the current
    value with the queue of timing segments still to run; [frame] is one
    animation frame (a move any fraction of the way towards the current
    target, or the completion of the current segment), and [settle] runs
    every segment to its end.  This is the library's documented behaviour,
    the environment of the bar's code. *)

From Stdlib Require Import QArith Lqa List.
From S2P Require Import Prelude.
Import ListNotations.
Local Open Scope Q_scope.

Module Reanimated.

Record Timing := mkTiming { toValue : Q; duration : Q }.

(** [withTiming]'s default duration, in milliseconds. *)
Definition DEFAULT_DURATION : Q := 300.

Definition withTiming (v d : Q) : list Timing := [mkTiming v d].

Definition withSequence (a b : list Timing) : list Timing := a ++ b.

Record SharedValue := mkSV { value : Q; running : list Timing }.

Definition useSharedValue (v : Q) : SharedValue := mkSV v [].

(** [sv.value = v]. *)
Definition assign (v : Q) (sv : SharedValue) : SharedValue := mkSV v [].

(** [sv.value = withTiming(...)] / [withSequence(...)]. *)
Definition assign_anim (a : list Timing) (sv : SharedValue) : SharedValue :=
  mkSV (value sv) a.

Inductive frame : SharedValue -> SharedValue -> Prop :=
| frame_progress v t rest l :
    0 <= l <= 1 ->
    frame (mkSV v (t :: rest)) (mkSV (v + l * (toValue t - v)) (t :: rest))
| frame_complete v t rest :
    frame (mkSV v (t :: rest)) (mkSV (toValue t) rest).

Fixpoint final_of (v : Q) (a : list Timing) : Q :=
  match a with
  | [] => v
  | t :: rest => final_of (toValue t) rest
  end.

(** The value an animation comes to rest at. *)
Definition final_value (sv : SharedValue) : Q := final_of (value sv) (running sv).

Definition settle (sv : SharedValue) : SharedValue := mkSV (final_value sv) [].

Definition in_range (lo hi : Q) (sv : SharedValue) : Prop :=
  lo <= value sv <= hi /\ Forall (fun t => lo <= toValue t <= hi) (running sv).

End Reanimated.

Module ReanimatedFacts.
Import Reanimated.

(** A frame keeps a value within any interval that holds it and all its
    pending targets. *)
Lemma frame_in_range lo hi sv sv' :
  frame sv sv' -> in_range lo hi sv -> in_range lo hi sv'.
Proof.
  destruct 1 as [v t rest l Hl | v t rest]; unfold in_range; cbn;
    intros [Hv Ht]; inversion Ht; subst; auto with capsule.
Qed.

(** [settle] is a sequence of frames: the executable end state refines
    the frame relation. *)
Lemma settle_reachable sv : star frame sv (settle sv).
Proof.
  destruct sv as [v a]. unfold settle, final_value; cbn. revert v.
  induction a as [|t rest IH]; intros v; cbn; [apply star_refl|].
  eapply star_step; [apply frame_complete|]. apply IH.
Qed.

Lemma useSharedValue_in_range lo hi v : lo <= v <= hi -> in_range lo hi (useSharedValue v).
Proof. split; cbn; auto. Qed.

Lemma assign_in_range lo hi v sv : lo <= v <= hi -> in_range lo hi (assign v sv).
Proof. split; cbn; auto. Qed.

Lemma assign_anim_in_range lo hi a sv :
  lo <= value sv <= hi -> Forall (fun t => lo <= toValue t <= hi) a ->
  in_range lo hi (assign_anim a sv).
Proof. split; cbn; auto. Qed.

Lemma in_range_anim lo hi a sv :
  in_range lo hi sv -> Forall (fun t => lo <= toValue t <= hi) a ->
  in_range lo hi (assign_anim a sv).
Proof. intros [Hv _]. now apply assign_anim_in_range. Qed.

Lemma withTiming_in_range lo hi v d :
  lo <= v <= hi -> Forall (fun t => lo <= toValue t <= hi) (withTiming v d).
Proof. intros. repeat constructor; apply H. Qed.

Lemma withSequence_in_range lo hi a b :
  Forall (fun t => lo <= toValue t <= hi) a ->
  Forall (fun t => lo <= toValue t <= hi) b ->
  Forall (fun t => lo <= toValue t <= hi) (withSequence a b).
Proof. intros. apply Forall_app. auto. Qed.

End ReanimatedFacts.

#[export] Hint Resolve ReanimatedFacts.assign_in_range ReanimatedFacts.in_range_anim
  ReanimatedFacts.withTiming_in_range ReanimatedFacts.withSequence_in_range
  ReanimatedFacts.frame_in_range : capsule.
