(* ===== verification/CapsuleBar.v ===== *)
(** * [FloatingCapsuleTabBar] (src/components/FloatigCapsuleBar.tsx)

    The component's five shared values form the record [BarState];
    [mount] is their initialisation, [onBegin], [onStart], [onUpdate] and
    [onEnd] are the pan gesture's worklets and [onPress] is a tab's press
    handler, each the whole body of the source callback.  [onEnd] runs on
    the UI thread and reaches the navigator through [runOnJS]: it returns
    the call it schedules ([JSCall]) instead of performing it.  [onPress]
    runs on the JavaScript thread and calls [navigate] at once, on any
    navigator of the [Nav.Navigator] interface.  [render] is the JSX the
    component returns, reduced to what it computes from state: colours,
    the capsule's transform and one item per tab.

    Everything depends on the window width, the section variable
    [SCREEN_WIDTH]. *)

From Stdlib Require Import String QArith Qround Qabs Lqa Lia ZArith List.
From S2P Require Import Prelude Colors Tabs Navigation Animation.
Import ListNotations Reanimated.
Local Open Scope Q_scope.

Module Capsule.
Section WithScreen.

(** [Dimensions.get('window').width]. *)
Context (SCREEN_WIDTH : Q).

Definition CONTAINER_PADDING : Q := 8.

(** [TABS.length] as a number. *)
Definition TABS_length : Q := Qnat (length Routes.TABS).

Definition TAB_WIDTH : Q := (SCREEN_WIDTH - CONTAINER_PADDING * 2) / TABS_length.

(** The component's shared values. *)
Record BarState := mkBar {
  capsuleScaleX : SharedValue;
  capsuleScaleY : SharedValue;
  isDragging : bool;
  translateX : SharedValue;
  startX : SharedValue
}.

(** The [useSharedValue] initialisers, evaluated with [state.index]. *)
Definition mount (state_index : nat) : BarState :=
  {| capsuleScaleX := useSharedValue 1;
     capsuleScaleY := useSharedValue 1;
     isDragging := false;
     translateX := useSharedValue (Qnat state_index * TAB_WIDTH);
     startX := useSharedValue (Qnat state_index * TAB_WIDTH) |}.

(** A call scheduled with [runOnJS]: [navigation.navigate(TABS[i])],
    whose argument is [undefined] when [i] is out of range. *)
Inductive JSCall := js_navigate (route : option string).

Definition onBegin (s : BarState) : BarState :=
  {| isDragging := true;
     capsuleScaleX := assign_anim (withTiming 1.21 150) (capsuleScaleX s);
     capsuleScaleY := assign_anim (withTiming 1.35 150) (capsuleScaleY s);
     translateX := translateX s;
     startX := startX s |}.

Definition onStart (s : BarState) : BarState :=
  {| startX := assign (value (translateX s)) (startX s);
     capsuleScaleX := capsuleScaleX s;
     capsuleScaleY := capsuleScaleY s;
     isDragging := isDragging s;
     translateX := translateX s |}.

(** [event.translationX] is the pointer's displacement since the
    gesture started. *)
Definition onUpdate (translationX : Q) (s : BarState) : BarState :=
  let newX := value (startX s) + translationX in
  let minX := 0 in
  let maxX := (TABS_length - 1) * TAB_WIDTH in
  {| translateX := assign (Math_min (Math_max newX minX) maxX) (translateX s);
     capsuleScaleX := capsuleScaleX s;
     capsuleScaleY := capsuleScaleY s;
     isDragging := isDragging s;
     startX := startX s |}.

(** The first two lines of [onEnd]: the slot the capsule snaps to. *)
Definition snap_index (x : Q) : Z :=
  let index := Math_round (x / TAB_WIDTH) in
  Z.max 0 (Z.min (Z.of_nat (length Routes.TABS) - 1) index).

(** The capsule's resting offset for slot [i]: [(i * TAB_WIDTH) / 1.1],
    written identically in [onEnd] and [onPress]. *)
Definition rest_offset (i : Q) : Q := (i * TAB_WIDTH) / 1.1.

Definition onEnd (s : BarState) : BarState * list JSCall :=
  let clampedIndex := snap_index (value (translateX s)) in
  let s1 := {| translateX := assign_anim
                 (withTiming (rest_offset (inject_Z clampedIndex)) DEFAULT_DURATION)
                 (translateX s);
               capsuleScaleX := capsuleScaleX s;
               capsuleScaleY := capsuleScaleY s;
               isDragging := isDragging s;
               startX := startX s |} in
  let call := js_navigate (option_map Routes.tab_name
                             (js_index Routes.TABS clampedIndex)) in
  ({| isDragging := false;
      capsuleScaleX := assign_anim (withTiming 1 150) (capsuleScaleX s1);
      capsuleScaleY := assign_anim (withTiming 1 150) (capsuleScaleY s1);
      translateX := translateX s1;
      startX := startX s1 |}, [call]).

Context {NS : Type} `{Nav.Navigator NS}.

(** The press handler of the item [(tab, index)] of [TABS.map]. *)
Definition onPress (tab : Routes.Tab) (index : nat) (s : BarState) (nav : NS)
  : BarState * NS :=
  let s' := {| capsuleScaleX := assign_anim
                 (withSequence (withTiming 1.21 150) (withTiming 1 150))
                 (capsuleScaleX s);
               capsuleScaleY := assign_anim
                 (withSequence (withTiming 1.35 150) (withTiming 1 150))
                 (capsuleScaleY s);
               translateX := assign_anim
                 (withTiming (rest_offset (Qnat index)) DEFAULT_DURATION)
                 (translateX s);
               isDragging := isDragging s;
               startX := startX s |} in
  (s', Nav.navigate (Routes.tab_name tab) nav).

(** ** What the component renders *)

Record TabItem := mkItem {
  item_key : Routes.Tab;
  item_label : string;
  item_icon : Routes.IconKey;
  item_color : string
}.

Record BarView := mkView {
  container_background : string;
  container_border : string;
  capsule_background : string;
  capsule_transform : Q * Q * Q;
  items : list TabItem
}.

(** One element of [TABS.map((tab, index) => ...)]. *)
Definition render_tab (state_index : nat) (p : Theme.Palette)
           (tab : Routes.Tab) (index : nat) : TabItem :=
  let isFocused := Nat.eqb state_index index in
  let tintColor := if isFocused then Theme.nav_icons_tinted p else Theme.nav_icons p in
  let meta := Routes.tabMeta tab in
  mkItem tab (Routes.label meta) (Routes.icon meta) tintColor.

Definition render (scheme : option Theme.ColorSchemeName) (state_index : nat)
           (s : BarState) : BarView :=
  let colorScheme := Theme.palette_of scheme in
  {| container_background := Theme.nav colorScheme;
     container_border := Theme.nav_border colorScheme;
     capsule_background := Theme.nav_capsule colorScheme;
     capsule_transform :=
       (value (translateX s), value (capsuleScaleX s), value (capsuleScaleY s));
     items := js_map (render_tab state_index colorScheme) Routes.TABS |}.

End WithScreen.

(** The rounding the specification describes for the drag's end:
  round half away from zero. *)
Definition round_half_away (x : Q) : Z :=
if Qle_bool 0 x then Qfloor (x + (1 # 2)) else (- Qfloor (- x + (1 # 2)))%Z.

End Capsule.

Module CapsuleFacts.
Import Capsule.

(** [snap_index] reads its offset up to [==]. *)
#[export] Instance snap_index_Proper (SCREEN_WIDTH : Q) : Proper (Qeq ==> eq) (snap_index SCREEN_WIDTH).
Proof. intros x y E. unfold snap_index. now rewrite E. Qed.

Lemma TABS_length_4 : TABS_length == 4.
Proof. reflexivity. Qed.

Lemma div_1_1 (q : Q) : q / 1.1 == q * (10 # 11).
Proof. reflexivity. Qed.

(** [Math.round(i / 1.1)] is [i] for [0 <= i <= 5]. *)
Lemma Math_round_div_1_1 (i : Z) : (0 <= i <= 5)%Z -> Math_round (inject_Z i / 1.1) = i.
Proof.
  intros Hi. rewrite div_1_1. apply Math_round_unique.
  - pose proof (inject_Z_le i 5 ltac:(lia)). change (inject_Z 5) with 5 in *. lra.
  - pose proof (inject_Z_le 0 i ltac:(lia)). change (inject_Z 0) with 0 in *. lra.
Qed.

Lemma snap_index_bounds (SCREEN_WIDTH x : Q) : (0 <= snap_index SCREEN_WIDTH x <= 3)%Z.
Proof. apply (clampZ_bounds 0 3). lia. Qed.

(** The selected slot always names a tab: [TABS[clampedIndex]] is never
    [undefined]. *)
Lemma snap_index_tab (SCREEN_WIDTH x : Q) :
  exists t, nth_error Routes.TABS (Z.to_nat (snap_index SCREEN_WIDTH x)) = Some t /\
            js_index Routes.TABS (snap_index SCREEN_WIDTH x) = Some t.
Proof.
  pose proof (snap_index_bounds SCREEN_WIDTH x) as Hk.
  rewrite js_index_nonneg by lia.
  destruct (nth_error Routes.TABS _) as [t|] eqn:Et; [eauto|].
  apply nth_error_None in Et. cbn in Et. lia.
Qed.

(** [onEnd] computed: its new state and the one call it schedules. *)
Lemma onEnd_eq (SCREEN_WIDTH : Q) (s : BarState) :
  let k := snap_index SCREEN_WIDTH (value (translateX s)) in
  exists t, nth_error Routes.TABS (Z.to_nat k) = Some t /\
    onEnd SCREEN_WIDTH s =
      ({| isDragging := false;
          capsuleScaleX := assign_anim (withTiming 1 150) (capsuleScaleX s);
          capsuleScaleY := assign_anim (withTiming 1 150) (capsuleScaleY s);
          translateX := assign_anim
            (withTiming (rest_offset SCREEN_WIDTH (inject_Z k)) DEFAULT_DURATION)
            (translateX s);
          startX := startX s |},
       [js_navigate (Some (Routes.tab_name t))]).
Proof.
  intros k. destruct (snap_index_tab SCREEN_WIDTH (value (translateX s))) as (t & Et & Ej).
  exists t. split; [exact Et|]. unfold onEnd. fold k in Ej |- *. now rewrite Ej.
Qed.

Section WithWidth.
Context (SCREEN_WIDTH : Q) (Hwidth : 16 < SCREEN_WIDTH).

Local Abbreviation W := (TAB_WIDTH SCREEN_WIDTH).

Lemma TAB_WIDTH_pos : 0 < W.
Proof.
  unfold TAB_WIDTH. rewrite TABS_length_4.
  apply Qlt_shift_div_l; unfold CONTAINER_PADDING; lra.
Qed.

Lemma maxX_eq : (TABS_length - 1) * W == 3 * W.
Proof. rewrite TABS_length_4. ring. Qed.

Lemma rest_offset_div (q : Q) : rest_offset SCREEN_WIDTH q / W == q / 1.1.
Proof. pose proof TAB_WIDTH_pos. unfold rest_offset. field. lra. Qed.

Lemma rest_offset_in_row (q : Q) :
  0 <= q <= 3 -> 0 <= rest_offset SCREEN_WIDTH q <= 3 * W.
Proof.
  pose proof TAB_WIDTH_pos. intros Hq. unfold rest_offset.
  rewrite div_1_1. nra.
Qed.

Lemma onUpdate_in_row (t : Q) (s : BarState) :
  0 <= value (translateX (onUpdate SCREEN_WIDTH t s)) <= 3 * W.
Proof.
  pose proof TAB_WIDTH_pos. cbn. rewrite maxX_eq.
  change (Math_min (Math_max ?x 0) ?m) with (clampQ 0 m x).
  apply clampQ_bounds. lra.
Qed.

Lemma dist_scale (x : Q) (z : Z) :
  Qabs (x - inject_Z z * W) == W * Qabs (x / W - inject_Z z).
Proof.
  pose proof TAB_WIDTH_pos.
  assert (E : x - inject_Z z * W == W * (x / W - inject_Z z)) by (field; lra).
  rewrite E, Qabs_Qmult, (Qabs_pos W) by lra. reflexivity.
Qed.

(** C3 [onUpdate] keeps the capsule inside the tab row: the new offset
    lies in [[0, (TABS.length - 1) * TAB_WIDTH]], follows the finger
    exactly inside the row, sticks to the first slot when dragged past
    the left end and to the last slot past the right end, and cancels
    any running animation of [translateX]. *)
Theorem onUpdate_clamps (t : Q) (s : BarState) :
  let x := value (translateX (onUpdate SCREEN_WIDTH t s)) in
  let newX := value (startX s) + t in
  (0 <= x <= 3 * W) /\
  (0 <= newX <= 3 * W -> x == newX) /\
  (newX <= 0 -> x == 0) /\
  (3 * W <= newX -> x == 3 * W) /\
  running (translateX (onUpdate SCREEN_WIDTH t s)) = [].
Proof.
  split; [apply onUpdate_in_row|].
  pose proof TAB_WIDTH_pos. cbn. rewrite maxX_eq.
  change (Math_min (Math_max ?x 0) ?m) with (clampQ 0 m x).
  split; [apply clampQ_id|].
  split; [intros; apply clampQ_low; lra|].
  split; [intros; apply clampQ_high; lra|reflexivity].
Qed.

(** Case analysis on a slot [i] in [0..2], with [inject_Z i] computed. *)
Local Ltac slot_cases E :=
  destruct E as [-> | [-> | ->]];
  try change (inject_Z 0) with 0 in *; try change (inject_Z 1) with 1 in *;
  try change (inject_Z 2) with 2 in *.

(** Offsets between the midpoint of two resting positions and the
    midpoint of the same two grid positions select the lower slot,
    although the upper slot's resting position is the nearer. *)
Lemma snap_between_midpoints (i : Z) (x : Q) :
  (0 <= i <= 2)%Z ->
  (inject_Z i + (1 # 2)) * W / 1.1 < x -> x < (inject_Z i + (1 # 2)) * W ->
  snap_index SCREEN_WIDTH x = i /\
  Qabs (x - rest_offset SCREEN_WIDTH (inject_Z (i + 1))) <
  Qabs (x - rest_offset SCREEN_WIDTH (inject_Z i)).
Proof.
  pose proof TAB_WIDTH_pos. intros Hi Hlo Hhi.
  assert (Ei : i = 0%Z \/ i = 1%Z \/ i = 2%Z) by lia.
  assert (D : forall q, rest_offset SCREEN_WIDTH q == q * W * (10 # 11))
    by (intros; unfold rest_offset; field).
  assert (Hlo' : forall q, q * W / 1.1 == q * W * (10 # 11)) by (intros; field).
  rewrite Hlo' in Hlo. rewrite !D. split.
  - unfold snap_index. rewrite (Math_round_unique i); [cbn; lia | |].
    + apply Qle_shift_div_l; [assumption|].
      slot_cases Ei; lra.
    + apply Qlt_shift_div_r; [assumption|].
      slot_cases Ei; lra.
  - rewrite inject_Z_plus. change (inject_Z 1) with 1. slot_cases Ei; qabs_split; lra.
Qed.

(** C2 The slot [onEnd] selects is a valid index of [TABS] whose grid
    position [i * TAB_WIDTH] is nearest to the capsule's offset: no
    slot's grid position is strictly closer, for every offset, also
    outside the row, thanks to the clamp.  It is not always the slot
    whose resting position [(i * TAB_WIDTH) / 1.1], where the capsule
    is drawn at rest, is nearest: for each pair of neighbouring slots,
    the offsets between the midpoint of their resting positions and the
    midpoint of their grid positions select the lower slot although the
    upper slot's resting position is closer (on a 390-point window,
    offset 229 selects slot 2, while slot 3 rests at 255 and slot 2 at
    170). *)
Theorem snap_index_nearest (x : Q) :
  ((0 <= snap_index SCREEN_WIDTH x <= 3)%Z /\
   forall j : Z, (0 <= j <= 3)%Z ->
     Qabs (x - inject_Z (snap_index SCREEN_WIDTH x) * W) <= Qabs (x - inject_Z j * W)) /\
  forall i : Z, (0 <= i <= 2)%Z ->
    (inject_Z i + (1 # 2)) * W / 1.1 < x -> x < (inject_Z i + (1 # 2)) * W ->
    snap_index SCREEN_WIDTH x = i /\
    Qabs (x - rest_offset SCREEN_WIDTH (inject_Z (i + 1))) <
    Qabs (x - rest_offset SCREEN_WIDTH (inject_Z i)).
Proof.
  pose proof TAB_WIDTH_pos. split; [split; [apply snap_index_bounds|]|].
  - intros j Hj. rewrite !dist_scale by assumption.
    apply Qmult_le_l; [assumption|]. now apply (clamp_round_nearest _ 3 j).
  - intros i. apply snap_between_midpoints.
Qed.

(** C7 Resting positions are stable: ending a drag at the offset where
    a tap or an earlier drag left the capsule, [(i * TAB_WIDTH) / 1.1],
    selects tab [i] again, for each of the four tabs. *)
Theorem snap_rest_offset (i : Z) :
  (0 <= i <= 3)%Z -> snap_index SCREEN_WIDTH (rest_offset SCREEN_WIDTH (inject_Z i)) = i.
Proof.
  intros Hi. unfold snap_index. rewrite rest_offset_div by assumption.
  rewrite Math_round_div_1_1 by lia. cbn. lia.
Qed.

(** C8 The capsule's position at mount, [state.index * TAB_WIDTH], is not
    the resting position [(state.index * TAB_WIDTH) / 1.1] a tap or a
    drag gives the same tab, unless the first tab is active. *)
Theorem mount_vs_rest (i : nat) :
  value (translateX (mount SCREEN_WIDTH i)) == rest_offset SCREEN_WIDTH (Qnat i)
  <-> i = 0%nat.
Proof.
  pose proof TAB_WIDTH_pos. cbn. unfold rest_offset. split.
  - intros E. destruct i as [|i]; [reflexivity|exfalso].
    pose proof (Qnat_le 1 (S i) ltac:(lia)). change (Qnat 1) with 1 in *.
    assert (Ha : 0 < Qnat (S i) * W) by (apply Qmult_lt_0_compat; lra).
    revert E Ha. generalize (Qnat (S i) * W). intros a E Ha.
    assert (F : a / 1.1 == a * (10 # 11)) by reflexivity. lra.
  - intros ->. change (Qnat 0) with 0. field.
Qed.

(** C4 [onEnd] schedules exactly one navigation, always to a real route
    (never [navigate(undefined)]): the tab of the selected slot.  It
    starts the capsule towards that slot's resting position, returns
    both scales to 1, clears [isDragging], and leaves the current
    offset for the animation to move. *)
Theorem onEnd_spec (s : BarState) :
  let k := snap_index SCREEN_WIDTH (value (translateX s)) in
  let s' := fst (onEnd SCREEN_WIDTH s) in
  exists t : Routes.Tab,
    nth_error Routes.TABS (Z.to_nat k) = Some t /\
    snd (onEnd SCREEN_WIDTH s) = [js_navigate (Some (Routes.tab_name t))] /\
    final_value (translateX s') == rest_offset SCREEN_WIDTH (inject_Z k) /\
    final_value (capsuleScaleX s') == 1 /\
    final_value (capsuleScaleY s') == 1 /\
    isDragging s' = false /\
    value (translateX s') == value (translateX s).
Proof.
  intros k s'. destruct (onEnd_eq SCREEN_WIDTH s) as (t & Et & E).
  exists t. subst s'. fold k in Et, E |- *. rewrite E. cbn -[Qeq].
  repeat split; assumption || reflexivity.
Qed.

(** C10 Rendering: one item per tab in [TABS] order, and the icon and label
    of item [j] are tinted with [nav_icons_tinted] exactly when [j] is
    the navigator's [state.index]; when that index is a valid slot its
    item exists, so exactly one tab is highlighted. *)
Theorem render_focus (scheme : option Theme.ColorSchemeName) (i : nat) (s : BarState) :
  (i < 4)%nat ->
  length (items (render scheme i s)) = 4%nat /\
  (exists item, nth_error (items (render scheme i s)) i = Some item) /\
  forall j item, nth_error (items (render scheme i s)) j = Some item ->
    nth_error Routes.TABS j = Some (item_key item) /\
    (item_color item = Theme.nav_icons_tinted (Theme.palette_of scheme) <-> j = i).
Proof.
  intros Hi. cbn [items render]. split; [now rewrite length_js_map|]. split.
  - rewrite nth_error_js_map.
    destruct (nth_error Routes.TABS i) eqn:E; [eauto|].
    apply nth_error_None in E. cbn in E. lia.
  - intros j item. rewrite nth_error_js_map.
    destruct (nth_error Routes.TABS j) as [t|]; cbn; [|discriminate].
    intros [= <-]. unfold render_tab. cbn. split; [reflexivity|].
    destruct (Nat.eqb_spec i j) as [->|Hne]; cbn; [tauto|].
    split; [|congruence]. intros E.
    exfalso. apply (ThemeFacts.nav_icons_tinted_distinct scheme). now rewrite E.
Qed.

(** On offsets that are not negative, [onEnd]'s selection is the clamp
    of rounding half away from zero. *)
Lemma snap_index_half_away (x : Q) :
  0 <= x -> snap_index SCREEN_WIDTH x = clampZ 0 3 (round_half_away (x / W)).
Proof.
  pose proof TAB_WIDTH_pos. intros Hx.
  assert (0 <= x / W) as Hy by (apply Qle_shift_div_l; lra).
  unfold snap_index, round_half_away. apply Qle_bool_iff in Hy. rewrite Hy.
  reflexivity.
Qed.

Section WithNavigator.
Context {NS : Type} `{Nav.NavigatorLaws NS}.

(** C5 A tap on tab [i] focuses route [i] of the navigator at once,
    starts the capsule towards slot [i]'s resting position, and
    pulses both scales (to 1.21 and 1.35, then back to 1).  The
    same happens when tab [i] is already focused: the navigator
    stays on [i] and the pulse runs again. *)
Theorem onPress_spec (i : nat) (t : Routes.Tab) (s : BarState) (nav : NS) :
  Nav.nav_routeNames nav = Routes.layout_routes ->
  nth_error Routes.TABS i = Some t ->
  let '(s', nav') := onPress SCREEN_WIDTH t i s nav in
  Nav.nav_index nav' = i /\
  Nav.nav_routeNames nav' = Routes.layout_routes /\
  final_value (translateX s') == rest_offset SCREEN_WIDTH (Qnat i) /\
  map toValue (running (capsuleScaleX s')) = [1.21; 1] /\
  map toValue (running (capsuleScaleY s')) = [1.35; 1].
Proof.
  intros Hr Ht. cbn -[Qeq].
  destruct (NavFacts.navigate_TABS nav i t Hr Ht) as [Hi Hn].
  repeat split; auto; reflexivity.
Qed.
End WithNavigator.
End WithWidth.
End CapsuleFacts.

(** ** Witnesses, on a 390-point-wide window ([TAB_WIDTH] = 93.5) *)
Module CapsuleWitnesses.
Import Capsule CapsuleFacts.

(** Offset 200 lies between slots 2 (187) and 3 (280.5): slot 2 is chosen. *)
Lemma snap_index_nearest_witness :
  snap_index 390 229 = 2%Z /\
  (((0 <= snap_index 390 229 <= 3)%Z /\
    forall j : Z, (0 <= j <= 3)%Z ->
      Qabs (229 - inject_Z (snap_index 390 229) * TAB_WIDTH 390)
      <= Qabs (229 - inject_Z j * TAB_WIDTH 390)) /\
   forall i : Z, (0 <= i <= 2)%Z ->
     (inject_Z i + (1 # 2)) * TAB_WIDTH 390 / 1.1 < 229 ->
     229 < (inject_Z i + (1 # 2)) * TAB_WIDTH 390 ->
     snap_index 390 229 = i /\
     Qabs (229 - rest_offset 390 (inject_Z (i + 1))) <
     Qabs (229 - rest_offset 390 (inject_Z i))).
Proof. split; [vm_compute; reflexivity | apply (snap_index_nearest 390); lra]. Defined.

(** Dragging 200 points right from the last slot pins the capsule at the
    row's right end, 280.5. *)
Lemma onUpdate_clamps_witness :
  value (translateX (onUpdate 390 200 (mount 390 3))) == 3 * TAB_WIDTH 390 /\
  (let x := value (translateX (onUpdate 390 200 (mount 390 3))) in
   let newX := value (startX (mount 390 3)) + 200 in
   (0 <= x <= 3 * TAB_WIDTH 390) /\
   (0 <= newX <= 3 * TAB_WIDTH 390 -> x == newX) /\
   (newX <= 0 -> x == 0) /\
   (3 * TAB_WIDTH 390 <= newX -> x == 3 * TAB_WIDTH 390) /\
   running (translateX (onUpdate 390 200 (mount 390 3))) = []).
Proof. split; [reflexivity | apply (onUpdate_clamps 390); lra]. Defined.

Lemma snap_rest_offset_witness :
  snap_index 390 (rest_offset 390 (inject_Z 3)) = 3%Z.
Proof. apply (snap_rest_offset 390); [lra | lia]. Defined.

Lemma mount_vs_rest_witness :
  ~ (value (translateX (mount 390 2)) == rest_offset 390 (Qnat 2)) /\
  (value (translateX (mount 390 2)) == rest_offset 390 (Qnat 2) <-> 2%nat = 0%nat).
Proof.
  assert (H : value (translateX (mount 390 2)) == rest_offset 390 (Qnat 2) <-> 2%nat = 0%nat)
    by (apply (mount_vs_rest 390); lra).
  split; [intros E; apply H in E; discriminate | exact H].
Defined.

Lemma render_focus_witness :
  let v := render None 1 (mount 390 1) in
  length (items v) = 4%nat /\
  (exists item, nth_error (items v) 1 = Some item) /\
  forall j item, nth_error (items v) j = Some item ->
    nth_error Routes.TABS j = Some (item_key item) /\
    (item_color item = Theme.nav_icons_tinted (Theme.palette_of None) <-> j = 1%nat).
Proof. apply render_focus. lia. Defined.

Import Nav.

(** Tapping [camera] while [favorites] is focused. *)
Lemma onPress_spec_witness :
  let '(s', nav') := onPress 390 Routes.camera 1 (mount 390 3) (layout_navigator 3) in
  nav_index nav' = 1%nat /\
  nav_routeNames nav' = Routes.layout_routes /\
  final_value (translateX s') == rest_offset 390 (Qnat 1) /\
  map toValue (running (capsuleScaleX s')) = [1.21; 1] /\
  map toValue (running (capsuleScaleY s')) = [1.35; 1].
Proof. apply (onPress_spec 390 1 Routes.camera); reflexivity. Defined.
End CapsuleWitnesses.
