(* ===== verification/Gesture.v ===== *)
(** * The tab bar in its environment

    A [World] is the capsule bar's shared values, the navigator's state,
    the pan recogniser's phase and the queue of calls [runOnJS] has
    scheduled on the JavaScript thread.  [step] is every event that can
    happen next, in any interleaving:
    - the recogniser's callbacks, in the order react-native-gesture-handler
      makes them: [onBegin] on touch-down, [onStart] on activation,
      [onUpdate] per move while active, [onEnd] on release of an active
      pan; a touch released before activation fails and calls none of the
      code's callbacks;
    - a press on tab [i] of the rendered [TABS.map];
    - the JavaScript thread running the oldest queued call;
    - a navigation the bar did not cause (back button, deep link, a
      [navigate] from a screen);
    - an animation frame of one of the three animated values.
    [exec] is an executable interpreter of the same events ([ESettle] runs
    all animations to their end, [EFlushJS] the whole queue), proved to
    follow [step]; concrete traces are evaluated with it. *)

From Stdlib Require Import String QArith Lqa Lia ZArith List.
From S2P Require Import Prelude Colors Tabs Navigation Animation CapsuleBar.
Import ListNotations Reanimated Capsule.
Local Open Scope Q_scope.

Module System.
Section WithScreen.
Context (SCREEN_WIDTH : Q) {NS : Type} `{Nav.Navigator NS}.

(** The pan recogniser's state, as far as the callbacks distinguish it. *)
Inductive Phase := Idle | Began | Active.

Record World := mkWorld {
  bar : BarState;
  nav : NS;
  phase : Phase;
  js_queue : list JSCall
}.

(** The tab bar mounted under a navigator: its shared values are
    initialised from the navigator's [state.index]. *)
Definition init (nav0 : NS) : World :=
  mkWorld (mount SCREEN_WIDTH (Nav.nav_index nav0)) nav0 Idle [].

Definition run_js (c : JSCall) (n : NS) : NS :=
  match c with js_navigate r => Nav.navigate_js r n end.

Definition set_bar (b : BarState) (w : World) : World :=
  mkWorld b (nav w) (phase w) (js_queue w).

Definition set_translateX (sv : SharedValue) (b : BarState) : BarState :=
  mkBar (capsuleScaleX b) (capsuleScaleY b) (isDragging b) sv (startX b).
Definition set_scaleX (sv : SharedValue) (b : BarState) : BarState :=
  mkBar sv (capsuleScaleY b) (isDragging b) (translateX b) (startX b).
Definition set_scaleY (sv : SharedValue) (b : BarState) : BarState :=
  mkBar (capsuleScaleX b) sv (isDragging b) (translateX b) (startX b).

Inductive step : World -> World -> Prop :=
  | step_touch b n q :
    step (mkWorld b n Idle q) (mkWorld (onBegin b) n Began q)
  | step_activate b n q :
    step (mkWorld b n Began q) (mkWorld (onStart b) n Active q)
  | step_move b n q t :
    step (mkWorld b n Active q) (mkWorld (onUpdate SCREEN_WIDTH t b) n Active q)
  | step_release b n q :
    step (mkWorld b n Active q)
         (mkWorld (fst (onEnd SCREEN_WIDTH b)) n Idle (q ++ snd (onEnd SCREEN_WIDTH b)))
  | step_fail b n q :
    step (mkWorld b n Began q) (mkWorld b n Idle q)
  | step_press w i t :
    nth_error Routes.TABS i = Some t ->
    step w (let '(b', n') := onPress SCREEN_WIDTH t i (bar w) (nav w) in
            mkWorld b' n' (phase w) (js_queue w))
  | step_js b n p c q :
    step (mkWorld b n p (c :: q)) (mkWorld b (run_js c n) p q)
  | step_external b n p q r :
    step (mkWorld b n p q) (mkWorld b (Nav.navigate r n) p q)
  | step_frame_x w sv :
    frame (translateX (bar w)) sv -> step w (set_bar (set_translateX sv (bar w)) w)
  | step_frame_sx w sv :
    frame (capsuleScaleX (bar w)) sv -> step w (set_bar (set_scaleX sv (bar w)) w)
  | step_frame_sy w sv :
    frame (capsuleScaleY (bar w)) sv -> step w (set_bar (set_scaleY sv (bar w)) w).

(** ** An executable interpreter *)

Inductive Event :=
  | ETouch | EActivate | EMove (translationX : Q) | ERelease | EFail
  | EPress (i : nat) | EFlushJS | EExternal (route : string) | ESettle.

Definition settle_bar (b : BarState) : BarState :=
  mkBar (settle (capsuleScaleX b)) (settle (capsuleScaleY b)) (isDragging b)
        (settle (translateX b)) (startX b).

(** [None] when the event cannot happen in this world. *)
Definition exec (e : Event) (w : World) : option World :=
  match e, phase w with
  | ETouch, Idle => Some (mkWorld (onBegin (bar w)) (nav w) Began (js_queue w))
  | EActivate, Began => Some (mkWorld (onStart (bar w)) (nav w) Active (js_queue w))
  | EMove t, Active =>
      Some (mkWorld (onUpdate SCREEN_WIDTH t (bar w)) (nav w) Active (js_queue w))
  | ERelease, Active =>
      let '(b', calls) := onEnd SCREEN_WIDTH (bar w) in
      Some (mkWorld b' (nav w) Idle (js_queue w ++ calls))
  | EFail, Began => Some (mkWorld (bar w) (nav w) Idle (js_queue w))
  | EPress i, _ =>
      match nth_error Routes.TABS i with
      | Some t => let '(b', n') := onPress SCREEN_WIDTH t i (bar w) (nav w) in
                  Some (mkWorld b' n' (phase w) (js_queue w))
      | None => None
      end
  | EFlushJS, _ =>
      Some (mkWorld (bar w) (fold_left (fun n c => run_js c n) (js_queue w) (nav w))
                    (phase w) [])
  | EExternal r, _ => Some (mkWorld (bar w) (Nav.navigate r (nav w)) (phase w) (js_queue w))
  | ESettle, _ => Some (set_bar (settle_bar (bar w)) w)
  | _, _ => None
  end.

Fixpoint run (es : list Event) (w : World) : option World :=
  match es with
  | [] => Some w
  | e :: es' => match exec e w with
                | Some w' => run es' w'
                | None => None
                end
  end.

(** ** The invariant *)

(** A queued call navigates to the route of a tab. *)
Definition valid_call (c : JSCall) : Prop :=
  exists t, c = js_navigate (Some (Routes.tab_name t)).

(** The capsule's offset, its start offset and every target its
    animation will pass through lie in the tab row
    [[0, 3 * TAB_WIDTH]]; each scale stays between 1 and its pulse
    maximum; the navigator keeps the layout's routes and focuses one of
    them; every queued call names a tab's route. *)
Definition inv (w : World) : Prop :=
  let W := TAB_WIDTH SCREEN_WIDTH in
  in_range 0 (3 * W) (translateX (bar w)) /\
  in_range 0 (3 * W) (startX (bar w)) /\
  in_range 1 1.21 (capsuleScaleX (bar w)) /\
  in_range 1 1.35 (capsuleScaleY (bar w)) /\
  Nav.nav_routeNames (nav w) = Routes.layout_routes /\
  (Nav.nav_index (nav w) < 4)%nat /\
  Forall valid_call (js_queue w).

End WithScreen.
End System.

Module SystemFacts.
Import System ReanimatedFacts Nav.

Section Soundness.
Context (SCREEN_WIDTH : Q) {NS : Type} `{Nav.Navigator NS}.

Local Abbreviation step := (step SCREEN_WIDTH (NS := NS)).

(** Frames of one animated field of the bar, given as a lens. *)
Section Lens.
Variable get : BarState -> SharedValue.
Variable put : SharedValue -> BarState -> BarState.
Hypothesis get_put : forall sv b, get (put sv b) = sv.
Hypothesis put_put : forall sv1 sv2 b, put sv2 (put sv1 b) = put sv2 b.
Hypothesis put_get : forall b, put (get b) b = b.
Hypothesis step_frame_lens :
  forall w sv, frame (get (bar w)) sv -> step w (set_bar (put sv (bar w)) w).

Lemma frames_lens (w : World) sv :
  star frame (get (bar w)) sv -> star step w (set_bar (put sv (bar w)) w).
Proof.
  intros Hs. remember (get (bar w)) as sv0 eqn:E. revert w E.
  induction Hs as [a|a b c Hab _ IH]; intros w E; subst.
  - rewrite put_get. destruct w. apply star_refl.
  - eapply star_step; [apply step_frame_lens; exact Hab|].
    specialize (IH (set_bar (put b (bar w)) w)). cbn in IH.
    rewrite get_put, put_put in IH. destruct w; apply IH; reflexivity.
Qed.
End Lens.

Lemma frames_x (w : World) sv :
  star frame (translateX (bar w)) sv -> star step w (set_bar (set_translateX sv (bar w)) w).
Proof.
  apply frames_lens; [intros ? []; reflexivity | intros ? ? []; reflexivity
                     | intros []; reflexivity | apply step_frame_x].
Qed.

Lemma frames_sx (w : World) sv :
  star frame (capsuleScaleX (bar w)) sv -> star step w (set_bar (set_scaleX sv (bar w)) w).
Proof.
  apply frames_lens; [intros ? []; reflexivity | intros ? ? []; reflexivity
                     | intros []; reflexivity | apply step_frame_sx].
Qed.

Lemma frames_sy (w : World) sv :
  star frame (capsuleScaleY (bar w)) sv -> star step w (set_bar (set_scaleY sv (bar w)) w).
Proof.
  apply frames_lens; [intros ? []; reflexivity | intros ? ? []; reflexivity
                     | intros []; reflexivity | apply step_frame_sy].
Qed.

(** [ESettle] is a sequence of animation frames. *)
Lemma settle_steps (w : World) : star step w (set_bar (settle_bar (bar w)) w).
Proof.
  eapply star_trans; [apply frames_x, ReanimatedFacts.settle_reachable|].
  eapply star_trans; [apply frames_sx, ReanimatedFacts.settle_reachable|].
  eapply star_trans; [apply frames_sy, ReanimatedFacts.settle_reachable|].
  destruct w as [[sx sy d x st] n p q]. apply star_refl.
Qed.

(** [EFlushJS] runs the queued calls one by one. *)
Lemma flush_steps (b : BarState) (n : NS) (p : Phase) (q : list JSCall) :
  star step (mkWorld b n p q) (mkWorld b (fold_left (fun n c => run_js c n) q n) p []).
Proof.
  revert n. induction q as [|c q IH]; intros n; cbn; [apply star_refl|].
  eapply star_step; [apply step_js|]. apply IH.
Qed.

Lemma exec_sound (e : Event) (w w' : World) :
  exec SCREEN_WIDTH e w = Some w' -> star step w w'.
Proof.
  destruct w as [b n p q].
  destruct e; destruct p; cbn; try discriminate; intros E;
    repeat match type of E with
    | context [let '(_, _) := ?x in _] => destruct x eqn:?
    | context [match nth_error ?l ?i with _ => _ end] => destruct (nth_error l i) eqn:?
    end; try discriminate; injection E as <-;
    first [ apply settle_steps | apply flush_steps | apply star_one ].
  all: try solve [constructor].
  all: try (eapply (step_press _ (mkWorld b n _ q)); eassumption).
  all: try (rewrite <- Heqp; apply step_release).
Qed.

Lemma run_sound (es : list Event) (w w' : World) :
  run SCREEN_WIDTH es w = Some w' -> star step w w'.
Proof.
  revert w. induction es as [|e es IH]; intros w; cbn.
  - intros [= <-]. apply star_refl.
  - destruct (exec SCREEN_WIDTH e w) as [w1|] eqn:E; [|discriminate].
    intros Hr. eapply star_trans; [exact (exec_sound e w w1 E)|]. now apply IH.
Qed.
End Soundness.

Section Invariant.
Context (SCREEN_WIDTH : Q) (Hwidth : 16 < SCREEN_WIDTH).
Context {NS : Type} `{Nav.NavigatorLaws NS}.

Local Abbreviation W := (TAB_WIDTH SCREEN_WIDTH).
Local Abbreviation inv := (inv SCREEN_WIDTH (NS := NS)).

Lemma navigate_keeps (n : NS) (r : string) :
  Nav.nav_routeNames n = Routes.layout_routes -> (Nav.nav_index n < 4)%nat ->
  Nav.nav_routeNames (Nav.navigate r n) = Routes.layout_routes /\
  (Nav.nav_index (Nav.navigate r n) < 4)%nat.
Proof.
  intros Hr Hi. split; [now rewrite Nav.navigate_routeNames|].
  pose proof (NavFacts.navigate_index_bound n r) as B.
  rewrite (Nav.navigate_routeNames n r), Hr in B. exact (B Hi).
Qed.

Ltac simpl_world :=
  cbn [bar nav phase js_queue onBegin onStart onUpdate onEnd onPress fst snd
       translateX startX capsuleScaleX capsuleScaleY isDragging
       set_bar set_translateX set_scaleX set_scaleY run_js Nav.navigate_js
       option_map] in *.

Lemma inv_step (w w' : World) : inv w -> step SCREEN_WIDTH w w' -> inv w'.
Proof.
  pose proof (CapsuleFacts.TAB_WIDTH_pos _ Hwidth) as HW.
  assert (R1 : forall v, v == 1 -> 1 <= v <= 1.21) by (intros; lra).
  assert (R2 : forall v, v == 1 -> 1 <= v <= 1.35) by (intros; lra).
  intros Hinv Hs. destruct Hs; unfold System.inv in *; cbn [bar nav js_queue] in *;
    destruct Hinv as (Hx & Hst & Hsx & Hsy & Hr & Hi & Hq).
  - (* touch *)
    simpl_world. split_conj; auto;
      apply in_range_anim; auto; apply withTiming_in_range; lra.
  - (* activate *)
    simpl_world. split_conj; auto; apply assign_in_range; apply Hx.
  - (* move *)
    simpl_world. split_conj; auto. apply assign_in_range.
    exact (CapsuleFacts.onUpdate_in_row SCREEN_WIDTH Hwidth t b).
  - (* release *)
    pose proof (CapsuleFacts.snap_index_bounds SCREEN_WIDTH (value (translateX b))) as Hk.
    destruct (CapsuleFacts.snap_index_tab SCREEN_WIDTH (value (translateX b)))
      as (tb & _ & Ej).
    simpl_world. rewrite Ej. split_conj; auto.
    + apply in_range_anim; auto. apply withTiming_in_range.
      apply (CapsuleFacts.rest_offset_in_row _ Hwidth).
      split; [apply (inject_Z_le 0) | apply (inject_Z_le _ 3)]; lia.
    + apply in_range_anim; auto. apply withTiming_in_range; lra.
    + apply in_range_anim; auto. apply withTiming_in_range; lra.
    + apply Forall_app. split; [assumption|]. repeat constructor. now exists tb.
  - (* fail *)
    split_conj; auto.
  - (* press *)
    destruct w as [b n p q]. simpl_world.
    destruct (NavFacts.navigate_TABS n i t Hr H1) as [Hi' Hr'].
    assert (Hi4 : (i < 4)%nat).
    { apply (proj1 (nth_error_Some Routes.TABS i)). congruence. }
    simpl_world. split_conj; auto; try (rewrite Hi'; exact Hi4);
      apply in_range_anim; auto;
      try (apply withSequence_in_range; apply withTiming_in_range; lra).
    apply withTiming_in_range. apply (CapsuleFacts.rest_offset_in_row _ Hwidth).
    split; [apply Qnat_nonneg | apply (Qnat_le _ 3); lia].
  - (* queued call *)
    inversion Hq as [|? ? [tc ->] Hq']; subst. simpl_world.
    destruct (navigate_keeps n (Routes.tab_name tc) Hr Hi). split_conj; auto.
  - (* external navigation *)
    destruct (navigate_keeps n r Hr Hi). split_conj; auto.
  - (* frames *)
    split_conj; auto. eapply ReanimatedFacts.frame_in_range; eauto.
  - split_conj; auto. eapply ReanimatedFacts.frame_in_range; eauto.
  - split_conj; auto. eapply ReanimatedFacts.frame_in_range; eauto.
Qed.

Lemma inv_init (nav0 : NS) :
  Nav.nav_routeNames nav0 = Routes.layout_routes -> (Nav.nav_index nav0 < 4)%nat ->
  inv (init SCREEN_WIDTH nav0).
Proof.
  pose proof (CapsuleFacts.TAB_WIDTH_pos _ Hwidth) as HW.
  intros Hr Hi. assert (Hq : 0 <= Qnat (Nav.nav_index nav0) <= 3).
  { split; [apply Qnat_nonneg | apply (Qnat_le _ 3); lia]. }
  unfold System.inv, init, mount. simpl_world.
  split_conj; auto; apply useSharedValue_in_range; split; nra.
Qed.

(** C1 Safety of the whole bar: in every state reachable from mounting
    the bar under the layout's navigator, by any interleaving of
    gestures, taps, animation frames, queued [runOnJS] calls and outside
    navigations, the capsule's offset and every offset it is animating
    towards lie in the tab row [[0, 3 * TAB_WIDTH]], the scales stay in
    [[1, 1.21]] and [[1, 1.35]], the navigator focuses one of the four
    routes, and every queued navigation names a tab. *)
Theorem reachable_inv (nav0 : NS) (w : World) :
  Nav.nav_routeNames nav0 = Routes.layout_routes -> (Nav.nav_index nav0 < 4)%nat ->
  star (step SCREEN_WIDTH) (init SCREEN_WIDTH nav0) w -> inv w.
Proof.
  intros Hr Hi Hs. eapply star_invariant; [|exact Hs|].
  - intros a b Ha Hab. exact (inv_step a b Ha Hab).
  - now apply inv_init.
Qed.

(** C6 A touch on the capsule that never becomes a pan (lifted before
    the activation threshold) runs [onBegin] and then no callback of
    the code: the recogniser fails, and [onEnd], which would restore
    the scale, runs only after activation.  Once every animation has
    finished, the capsule is still enlarged to 1.21 x 1.35 and
    [isDragging] is still set. *)
Theorem unactivated_touch_leaves_capsule_enlarged (w : World) :
  phase w = Idle ->
  exists w', run SCREEN_WIDTH [ETouch; EFail; ESettle] w = Some w' /\
    phase w' = Idle /\ isDragging (bar w') = true /\
    value (capsuleScaleX (bar w')) == 1.21 /\ value (capsuleScaleY (bar w')) == 1.35 /\
    running (capsuleScaleX (bar w')) = [] /\ running (capsuleScaleY (bar w')) = [].
Proof.
  intros Hp. destruct w as [b n p q]. cbn in Hp. subst p.
  eexists. split; [reflexivity|]. cbn -[Qeq]. split_conj; reflexivity.
Qed.
End Invariant.

End SystemFacts.

(** ** Witnesses, on a 390-point-wide window under the layout's navigator *)
Module SystemWitnesses.
Import System SystemFacts Nav.

Definition w0 : World := init 390 (layout_navigator 0).

(** A drag of 1000 points from the first tab, released, with the queued
    navigation run and the animations finished. *)
Lemma reachable_inv_witness :
  exists w, run 390 [ETouch; EActivate; EMove 1000; ERelease; EFlushJS; ESettle] w0 = Some w /\
            inv 390 w.
Proof.
  eexists. split; [reflexivity|].
  apply (reachable_inv 390 ltac:(lra) (layout_navigator 0)); [reflexivity | cbn; lia |].
  apply (run_sound 390 [ETouch; EActivate; EMove 1000; ERelease; EFlushJS; ESettle]).
  reflexivity.
Defined.

Lemma unactivated_touch_witness :
  exists w', run 390 [ETouch; EFail; ESettle] w0 = Some w' /\
    phase w' = Idle /\ isDragging (bar w') = true /\
    value (capsuleScaleX (bar w')) == 1.21 /\ value (capsuleScaleY (bar w')) == 1.35 /\
    running (capsuleScaleX (bar w')) = [] /\ running (capsuleScaleY (bar w')) = [].
Proof. apply unactivated_touch_leaves_capsule_enlarged. reflexivity. Defined.
End SystemWitnesses.
