(* ===== verification/Layout.v ===== *)
(** * The bar's geometry: the style sheet of [FloatigCapsuleBar.tsx]

    [styles] is the [StyleSheet.create] object at the end of the source.
    The container is absolutely positioned 20 points from both window
    edges, has a 1.8-point border and [CONTAINER_PADDING] of horizontal
    padding, and lays its four [flex: 1] tabs out in a row; the capsule is
    absolutely positioned inside it and moved by [translateX].  Where an
    absolutely positioned child's offsets are measured from (the padding
    box in CSS; some Yoga versions also add the padding) is left open as
    the section variable [capsule_origin]: the theorems hold for any
    value.  The geometry shows what the [/ 1.1] of the resting offsets
    does: it makes the capsule's step from slot to slot closer to the
    tabs' step, but equal to it on one window width only. *)

From Stdlib Require Import String QArith Lqa Lia ZArith List.
From S2P Require Import Prelude Animation CapsuleBar.
Import ListNotations Reanimated Capsule.
Local Open Scope Q_scope.

Module Styles.

Record ContainerStyle := mkContainer {
  c_height : Q; c_bottom : Q; c_left : Q; c_right : Q; c_borderRadius : Q;
  c_elevation : Q; c_paddingHorizontal : Q; c_borderWidth : Q
}.

Record CapsuleStyle := mkCapsule {
  k_top : Q; k_left : Q; k_width : Q; k_height : Q; k_borderRadius : Q
}.

Record TextStyle := mkText { t_fontSize : Q; t_marginBottom : Q; t_letterSpacing : Q }.

Record StyleSheet := mkStyles {
  container : ContainerStyle;
  capsule : CapsuleStyle;
  tab_flex : Q;
  tabContent_paddingTop : Q;
  tabLabel : TextStyle
}.

(** The numeric entries of [styles] ([position], [flexDirection],
    [alignItems] and the like are the fixed choices the geometry below
    assumes). *)
Definition styles : StyleSheet :=
  {| container := mkContainer 61 30 20 20 50 10 CONTAINER_PADDING 1.8;
     capsule := mkCapsule 2.5 2.5 92 52 30;
     tab_flex := 1;
     tabContent_paddingTop := 8;
     tabLabel := mkText 12 4 0 |}.

Section Geometry.
Context (SCREEN_WIDTH : Q) (capsule_origin : Q).

(** Width of the container's content box: the window less the two
    20-point insets, the two borders and the two paddings. *)
Definition content_width : Q :=
  let c := container styles in
  SCREEN_WIDTH - c_left c - c_right c - 2 * c_borderWidth c - 2 * c_paddingHorizontal c.

(** Four [flex: 1] tabs share the content box equally. *)
Definition slot_width : Q := content_width / TABS_length.

(** Left edge of tab [i], from the container's outer left edge. *)
Definition tab_left (i : nat) : Q :=
  let c := container styles in
  c_borderWidth c + c_paddingHorizontal c + Qnat i * slot_width.

(** Left edge of the (unscaled) capsule at offset [x]. *)
Definition capsule_left (x : Q) : Q := capsule_origin + k_left (capsule styles) + x.

(** Outer width of the container: the window less its [left] and
    [right] insets. *)
Definition container_width : Q :=
  let c := container styles in SCREEN_WIDTH - c_left c - c_right c.

(** Right edge of the capsule at offset [x], drawn with horizontal scale
    [sx]: the [scaleX] of [capsuleStyle] scales about the capsule's
    centre. *)
Definition capsule_right (x sx : Q) : Q :=
  capsule_left x + k_width (capsule styles) * (1 + sx) / 2.

End Geometry.
End Styles.

Module StylesFacts.
Import Styles.

Section Geometry.
Context (SCREEN_WIDTH capsule_origin : Q).

Local Abbreviation W := (TAB_WIDTH SCREEN_WIDTH).

(** The capsule's position relative to tab [i] drifts linearly with [i],
    by the difference between the capsule's step [TAB_WIDTH / 1.1] and
    the tabs' step [slot_width]. *)
Lemma capsule_drift (i : nat) :
  capsule_left capsule_origin (rest_offset SCREEN_WIDTH (Qnat i)) - tab_left SCREEN_WIDTH i
  == (capsule_left capsule_origin (rest_offset SCREEN_WIDTH 0) - tab_left SCREEN_WIDTH 0)
     + Qnat i * (W / 1.1 - slot_width SCREEN_WIDTH).
Proof.
  unfold capsule_left, tab_left, rest_offset, slot_width. cbn [container capsule styles].
  change (Qnat 0) with 0. change TABS_length with 4. field.
Qed.

Lemma step_difference :
  W / 1.1 - slot_width SCREEN_WIDTH == (198.24 - 0.4 * SCREEN_WIDTH) / 17.6.
Proof.
  unfold slot_width, content_width, TAB_WIDTH.
  cbn [container styles c_left c_right c_borderWidth c_paddingHorizontal].
  unfold CONTAINER_PADDING. change TABS_length with 4. field.
Qed.

(** C11 The capsule keeps the same position relative to the tab it
    marks, on all four tabs, exactly when the window is 495.6 points
    wide: on every other width its resting position drifts against the
    tabs by a fixed amount per slot, whatever the origin of its absolute
    positioning.  (At 390 points it ends 7.2 points further right under
    the last tab than under the first.) *)
Theorem capsule_tracks_tabs_iff :
  (forall i : nat, (i < 4)%nat ->
     capsule_left capsule_origin (rest_offset SCREEN_WIDTH (Qnat i)) - tab_left SCREEN_WIDTH i
     == capsule_left capsule_origin (rest_offset SCREEN_WIDTH 0) - tab_left SCREEN_WIDTH 0)
  <-> SCREEN_WIDTH == 495.6.
Proof.
  pose proof step_difference as D. split.
  - intros H. specialize (H 1%nat ltac:(lia)). rewrite capsule_drift in H.
    change (Qnat 1) with 1 in H. rewrite D in H.
    assert (E : (198.24 - 0.4 * SCREEN_WIDTH) / 17.6 == 0) by lra.
    assert (F : (198.24 - 0.4 * SCREEN_WIDTH) / 17.6 == (198.24 - 0.4 * SCREEN_WIDTH) * (10 # 176))
      by reflexivity.
    lra.
  - intros HW i _. rewrite capsule_drift, D.
    assert (Z0 : (198.24 - 0.4 * SCREEN_WIDTH) / 17.6 == 0).
    { assert (F : (198.24 - 0.4 * SCREEN_WIDTH) / 17.6
                  == (198.24 - 0.4 * SCREEN_WIDTH) * (10 # 176)) by reflexivity.
      rewrite F. lra. }
    rewrite Z0, Qmult_0_r, Qplus_0_r. reflexivity.
Qed.
(** C12 At mount the capsule steps by [TAB_WIDTH] per slot while the tabs
    step by [slot_width]; the two differ by 10.9 points on every window
    width, because [TAB_WIDTH] ignores the container's insets and border.
    Mounted on the last tab, the capsule sits 32.7 points further right
    of its tab than it does on the first. *)
Theorem mount_drift (i : nat) :
  capsule_left capsule_origin (value (translateX (mount SCREEN_WIDTH i))) - tab_left SCREEN_WIDTH i
  == (capsule_left capsule_origin (value (translateX (mount SCREEN_WIDTH 0)))
      - tab_left SCREEN_WIDTH 0) + Qnat i * 10.9.
Proof.
  unfold mount, capsule_left, tab_left, slot_width, content_width, TAB_WIDTH.
  cbn [container capsule styles c_left c_right c_borderWidth c_paddingHorizontal k_left
       translateX value useSharedValue].
  change TABS_length with 4. unfold CONTAINER_PADDING. change (Qnat 0) with 0.
  field.
Qed.

(** C16 Dragged to the right end of the row, the capsule overhangs the
    bar: [onUpdate] lets the offset reach [3 * TAB_WIDTH], measured with
    the window's 16 points of padding only, and the capsule is 92 points
    wide, so its right edge passes the container's outer right edge by
    [origin + 122.5 - SCREEN_WIDTH / 4], plus 46 points per unit of
    horizontal scale above 1.  The container does not clip it (its
    [overflow: 'hidden'] is commented out); on a 390-point window,
    enlarged to 1.21 as during a drag and measured from the padding box,
    the capsule sticks out 36.46 points. *)
Theorem drag_end_overhang (s : BarState) (t sx : Q) :
  16 < SCREEN_WIDTH -> 3 * W <= value (startX s) + t ->
  capsule_right capsule_origin (value (translateX (onUpdate SCREEN_WIDTH t s))) sx
    - container_width SCREEN_WIDTH
  == capsule_origin + 122.5 - SCREEN_WIDTH / 4 + 46 * (sx - 1).
Proof.
  intros Hw Ht. pose proof (CapsuleFacts.TAB_WIDTH_pos _ Hw) as HW.
  assert (E : value (translateX (onUpdate SCREEN_WIDTH t s)) == 3 * W).
  { cbn [onUpdate translateX value assign]. rewrite CapsuleFacts.maxX_eq.
    change (Math_min (Math_max ?x 0) ?m) with (clampQ 0 m x).
    apply clampQ_high; lra. }
  unfold capsule_right, capsule_left, container_width. rewrite E.
  unfold TAB_WIDTH. cbn [container capsule styles c_left c_right k_left k_width].
  change TABS_length with 4. unfold CONTAINER_PADDING. field.
Qed.

End Geometry.
End StylesFacts.

Module StylesWitnesses.
Import Styles StylesFacts.

(** On a 390-point window the capsule does not track the tabs: resting
    under the last tab it is 7.2 points further right of it than under
    the first. *)
Lemma capsule_tracks_tabs_witness :
  capsule_left 0 (rest_offset 390 (Qnat 3)) - tab_left 390 3
    == (capsule_left 0 (rest_offset 390 0) - tab_left 390 0) + 7.2 /\
  ~ (forall i : nat, (i < 4)%nat ->
       capsule_left 0 (rest_offset 390 (Qnat i)) - tab_left 390 i
       == capsule_left 0 (rest_offset 390 0) - tab_left 390 0).
Proof.
  split; [vm_compute; reflexivity|].
  intros H. apply (capsule_tracks_tabs_iff 390 0) in H. vm_compute in H. discriminate H.
Defined.
(** A drag of 400 points from the first tab on a 390-point window, with
    the capsule at its drag scale 1.21 and positioned from the padding
    box (origin 1.8): it ends 36.46 points past the bar's right edge. *)
Lemma drag_end_overhang_witness :
  let s := onStart (onBegin (mount 390 0)) in
  capsule_right 1.8 (value (translateX (onUpdate 390 400 s))) 1.21 - container_width 390
  == 36.46.
Proof.
  intros s. rewrite (drag_end_overhang 390 1.8 s 400 1.21); [reflexivity | lra |].
  vm_compute. discriminate.
Defined.
End StylesWitnesses.
