(* ===== verification/Scheduler.v ===== *)
(** * The work a handler leaves behind, and the order it runs in

    A handler of the bar returns with work still to do: the calls [onEnd]
    queued with [runOnJS], which the JavaScript thread runs oldest first,
    and the timing segments of the shared values, each of which ends at
    its target.  [internal] is exactly that work, one queued call or one
    finished segment per step; the frames of [System.step] that move a
    value only part of the way are left out, since they do not change
    where it comes to rest.  The lemmas show that this work always
    terminates (it decreases [pending_work]) and that every order of
    doing it ends in the same world, the one [EFlushJS; ESettle]
    computes.  The theorems use them to say what that world is after a
    drag is released, that a tap handled before the call a release
    queued leaves the navigator and the capsule on different tabs, and
    that a navigation from outside the bar leaves the capsule where it
    was. *)

From Stdlib Require Import String QArith Lqa Lia ZArith List.
From S2P Require Import Prelude Colors Tabs Navigation Animation CapsuleBar Gesture.
Import ListNotations Reanimated Capsule System.
Local Open Scope Q_scope.

Module Quiesce.
Section WithScreen.
Context (SCREEN_WIDTH : Q) {NS : Type} `{Nav.Navigator NS}.

Local Abbreviation World := (@World NS).

(** The end of a value's current timing segment: the value jumps to the
    segment's target and the next segment starts. *)
Definition complete_segment (sv : SharedValue) : option SharedValue :=
  match running sv with
  | t :: rest => Some (mkSV (toValue t) rest)
  | [] => None
  end.

Inductive internal : World -> World -> Prop :=
| internal_js b n p c q :
    internal (mkWorld b n p (c :: q)) (mkWorld b (run_js c n) p q)
| internal_x w sv :
    complete_segment (translateX (bar w)) = Some sv ->
    internal w (set_bar (set_translateX sv (bar w)) w)
| internal_sx w sv :
    complete_segment (capsuleScaleX (bar w)) = Some sv ->
    internal w (set_bar (set_scaleX sv (bar w)) w)
| internal_sy w sv :
    complete_segment (capsuleScaleY (bar w)) = Some sv ->
    internal w (set_bar (set_scaleY sv (bar w)) w).

(** Queued calls plus timing segments still to run. *)
Definition pending_work (w : World) : nat :=
  length (js_queue w) + length (running (translateX (bar w))) +
  length (running (capsuleScaleX (bar w))) + length (running (capsuleScaleY (bar w))).

(** The world once all that work is done. *)
Definition outcome (w : World) : World :=
  mkWorld (settle_bar (bar w)) (fold_left (fun n c => run_js c n) (js_queue w) (nav w))
          (phase w) [].

End WithScreen.
End Quiesce.

Module QuiesceFacts.
Import Quiesce.

Lemma complete_frame (sv sv' : SharedValue) :
  complete_segment sv = Some sv' -> frame sv sv'.
Proof.
  destruct sv as [v [|t rest]]; cbn; intros E; [discriminate|].
  injection E as <-. apply frame_complete.
Qed.

Lemma complete_length (sv sv' : SharedValue) :
  complete_segment sv = Some sv' -> S (length (running sv')) = length (running sv).
Proof. destruct sv as [v [|t rest]]; cbn; intros E; [discriminate|]. now injection E as <-. Qed.

Lemma complete_settle (sv sv' : SharedValue) :
  complete_segment sv = Some sv' -> settle sv' = settle sv.
Proof. destruct sv as [v [|t rest]]; cbn; intros E; [discriminate|]. now injection E as <-. Qed.

Lemma complete_none (sv : SharedValue) :
  complete_segment sv = None -> settle sv = sv.
Proof. destruct sv as [v [|t rest]]; cbn; intros E; [reflexivity | discriminate]. Qed.

Section WithScreen.
Context (SCREEN_WIDTH : Q) {NS : Type} `{Nav.Navigator NS}.

Local Abbreviation World := (@World NS).

Local Abbreviation internal := (internal (NS := NS)).

(** The work is part of what [System.step] allows. *)
Lemma internal_step (w w' : World) : internal w w' -> step SCREEN_WIDTH w w'.
Proof.
  destruct 1.
  - apply step_js.
  - apply step_frame_x. now apply complete_frame.
  - apply step_frame_sx. now apply complete_frame.
  - apply step_frame_sy. now apply complete_frame.
Qed.

Lemma internal_decreases (w w' : World) :
  internal w w' -> (pending_work w' < pending_work w)%nat.
Proof.
  unfold pending_work. destruct 1 as [| w sv E | w sv E | w sv E]; cbn; try lia;
    apply complete_length in E; destruct w as [[sx sy d x st] n p q]; cbn in *; lia.
Qed.

Lemma internal_outcome (w w' : World) : internal w w' -> outcome w' = outcome w.
Proof.
  unfold outcome, settle_bar. destruct 1 as [| w sv E | w sv E | w sv E]; cbn; try reflexivity;
    apply complete_settle in E; destruct w as [[sx sy d x st] n p q]; cbn in *; now rewrite E.
Qed.

(** Unless everything is done, some work can run. *)
Lemma internal_progress (w : World) : (exists w', internal w w') \/ irreducible internal w.
Proof.
  destruct w as [b n p [|c q]]; [|left; eexists; apply internal_js].
  destruct (complete_segment (translateX b)) as [sv|] eqn:Ex;
    [left; eexists; apply (internal_x (mkWorld b n p [])); exact Ex|].
  destruct (complete_segment (capsuleScaleX b)) as [sv|] eqn:Esx;
    [left; eexists; apply (internal_sx (mkWorld b n p [])); exact Esx|].
  destruct (complete_segment (capsuleScaleY b)) as [sv|] eqn:Esy;
    [left; eexists; apply (internal_sy (mkWorld b n p [])); exact Esy|].
  right. intros w' Hs. inversion Hs; subst; cbn in *; congruence.
Qed.

Lemma irreducible_outcome (w : World) : irreducible internal w -> outcome w = w.
Proof.
  intros Hirr. destruct w as [[sx sy d x st] n p q].
  destruct q as [|c q]; [|exfalso; eapply Hirr, internal_js].
  unfold outcome, settle_bar; cbn.
  destruct (complete_segment x) eqn:Ex;
    [exfalso; eapply Hirr, (internal_x (mkWorld (mkBar sx sy d x st) n p [])); exact Ex|].
  destruct (complete_segment sx) eqn:Esx;
    [exfalso; eapply Hirr, (internal_sx (mkWorld (mkBar sx sy d x st) n p [])); exact Esx|].
  destruct (complete_segment sy) eqn:Esy;
    [exfalso; eapply Hirr, (internal_sy (mkWorld (mkBar sx sy d x st) n p [])); exact Esy|].
  now rewrite !complete_none.
Qed.

Lemma run_outcome (w : World) :
  run SCREEN_WIDTH [EFlushJS; ESettle] w = Some (outcome w).
Proof. destruct w; reflexivity. Qed.

(** The pending work can always be run to the end. *)
Lemma internal_completes (w : World) : exists w', star internal w w' /\ irreducible internal w'.
Proof. apply (normal_form_exists _ pending_work internal_decreases internal_progress). Qed.

(** Every maximal run of the pending work ends in [outcome]. *)
Lemma internal_final (w w' : World) :
  star internal w w' -> irreducible internal w' -> w' = outcome w.
Proof. apply (star_outcome _ _ internal_outcome irreducible_outcome). Qed.

End WithScreen.

Section Ordering.
Context (SCREEN_WIDTH : Q) {NS : Type} `{Nav.NavigatorLaws NS}.

Local Abbreviation World := (@World NS).
Local Abbreviation internal := (internal (NS := NS)).

(** Running queued calls keeps the navigator's routes. *)
Lemma fold_run_js_routeNames (q : list JSCall) (n : NS) :
  Nav.nav_routeNames (fold_left (fun n c => run_js c n) q n) = Nav.nav_routeNames n.
Proof.
  revert n. induction q as [|[[r|]] q IH]; intros n; cbn; [reflexivity| |apply IH].
  rewrite IH. apply Nav.navigate_routeNames.
Qed.

(** Navigating to [TABS[i]] after any queued calls focuses [i]. *)
Lemma navigate_after_calls (q : list JSCall) (n : NS) (i : nat) (t : Routes.Tab) :
  Nav.nav_routeNames n = Routes.layout_routes -> nth_error Routes.TABS i = Some t ->
  Nav.nav_index (Nav.navigate (Routes.tab_name t) (fold_left (fun n c => run_js c n) q n)) = i.
Proof.
  intros Hr Ht. apply (NavFacts.navigate_TABS _ i t); [|exact Ht].
  now rewrite fold_run_js_routeNames.
Qed.

(** C13 Liveness of a release: once an active pan is released, the
    work it leaves can always be completed, and every way the
    JavaScript thread and the animations can complete it (with any calls queued before it still pending) ends with
    the navigator on the slot [k] that [onEnd] selected, the capsule at
    rest at [k]'s resting offset, both scales at 1, [isDragging] cleared
    and nothing queued or running. *)
Theorem released_drag_settles (w : World) :
  Nav.nav_routeNames (nav w) = Routes.layout_routes -> phase w = Active ->
  exists w1, exec SCREEN_WIDTH ERelease w = Some w1 /\
  (exists w', star internal w1 w' /\ irreducible internal w') /\
  forall w', star internal w1 w' -> irreducible internal w' ->
    let k := snap_index SCREEN_WIDTH (value (translateX (bar w))) in
    Nav.nav_index (nav w') = Z.to_nat k /\
    value (translateX (bar w')) == rest_offset SCREEN_WIDTH (inject_Z k) /\
    value (capsuleScaleX (bar w')) == 1 /\ value (capsuleScaleY (bar w')) == 1 /\
    isDragging (bar w') = false /\ phase w' = Idle /\ js_queue w' = [] /\
    running (translateX (bar w')) = [] /\
    running (capsuleScaleX (bar w')) = [] /\ running (capsuleScaleY (bar w')) = [].
Proof.
  intros Hr Hp. destruct w as [b n p q]. cbn in Hr, Hp. subst p.
  destruct (CapsuleFacts.onEnd_eq SCREEN_WIDTH b) as (t & Et & E).
  eexists. split; [cbn [exec phase bar]; rewrite E; reflexivity|].
  split; [apply internal_completes|]. intros w' Hs Hirr. rewrite (internal_final _ w' Hs Hirr).
  unfold outcome; cbn [nav js_queue bar phase]. rewrite fold_left_app.
  cbn -[Qeq rest_offset snap_index].
  split_conj; first [now apply navigate_after_calls | reflexivity].
Qed.

(** C14 Ordering of a tap against a queued call: after a release has
    queued its navigation to slot [k], a tap on tab [j] runs its handler
    on the JavaScript thread at once.  If the tap is handled before the
    queued call, the call runs last: the navigator ends on [k] while the
    capsule rests under [j].  If the queued call runs first, both end on
    [j]. *)
Theorem tap_overtakes_queued_call (w : World) (j : nat) (tj : Routes.Tab) :
  Nav.nav_routeNames (nav w) = Routes.layout_routes -> phase w = Active ->
  nth_error Routes.TABS j = Some tj ->
  let k := snap_index SCREEN_WIDTH (value (translateX (bar w))) in
  exists w1 w2,
    run SCREEN_WIDTH [ERelease; EPress j; EFlushJS; ESettle] w = Some w1 /\
    Nav.nav_index (nav w1) = Z.to_nat k /\
    value (translateX (bar w1)) == rest_offset SCREEN_WIDTH (Qnat j) /\
    run SCREEN_WIDTH [ERelease; EFlushJS; EPress j; ESettle] w = Some w2 /\
    Nav.nav_index (nav w2) = j /\
    value (translateX (bar w2)) == rest_offset SCREEN_WIDTH (Qnat j).
Proof.
  intros Hr Hp Hj. destruct w as [b n p q]. cbn in Hr, Hp. subst p.
  destruct (CapsuleFacts.onEnd_eq SCREEN_WIDTH b) as (t & Et & E).
  cbn [run exec phase bar nav js_queue]. rewrite E, Hj.
  cbn -[Qeq rest_offset snap_index]. eexists _, _.
  split_conj; try reflexivity; rewrite ?fold_left_app; cbn -[Qeq rest_offset snap_index].
  - apply (navigate_after_calls q _ _ t); [|exact Et]. now rewrite Nav.navigate_routeNames.
  - apply (navigate_after_calls [] _ j tj); [|exact Hj].
    transitivity (Nav.nav_routeNames (fold_left (fun n c => run_js c n) q n));
      [apply Nav.navigate_routeNames | now rewrite fold_run_js_routeNames].
Qed.
End Ordering.
End QuiesceFacts.

(** ** Witnesses, on a 390-point-wide window under the layout's navigator *)
Module QuiesceWitnesses.
Import Quiesce QuiesceFacts Nav.

(** A pan from the first tab, moved 200 points and still active: the
    release selects slot 2 (200 / 93.5 rounds to 2). *)
Definition w_active : World :=
  match run 390 [ETouch; EActivate; EMove 200] (init 390 (layout_navigator 0)) with
  | Some w => w
  | None => init 390 (layout_navigator 0)
  end.

(** The released pan of [w_active] ends on slot 2. *)
Lemma released_drag_settles_witness :
  snap_index 390 (value (translateX (bar w_active))) = 2%Z /\
  exists w1, exec 390 ERelease w_active = Some w1 /\
  (exists w', star internal w1 w' /\ irreducible internal w') /\
  forall w', star internal w1 w' -> irreducible internal w' ->
    let k := snap_index 390 (value (translateX (bar w_active))) in
    nav_index (nav w') = Z.to_nat k /\
    value (translateX (bar w')) == rest_offset 390 (inject_Z k) /\
    value (capsuleScaleX (bar w')) == 1 /\ value (capsuleScaleY (bar w')) == 1 /\
    isDragging (bar w') = false /\ phase w' = Idle /\ js_queue w' = [] /\
    running (translateX (bar w')) = [] /\
    running (capsuleScaleX (bar w')) = [] /\ running (capsuleScaleY (bar w')) = [].
Proof.
  split; [vm_compute; reflexivity|].
  apply released_drag_settles; [exact _ | vm_compute; reflexivity | vm_compute; reflexivity].
Defined.


(** Released on slot 2, then a tap on the first tab handled before the
    queued call: the navigator ends on slot 2, the capsule under tab 0. *)
Lemma tap_overtakes_queued_call_witness :
  snap_index 390 (value (translateX (bar w_active))) = 2%Z /\
  let k := snap_index 390 (value (translateX (bar w_active))) in
  exists w1 w2,
    run 390 [ERelease; EPress 0; EFlushJS; ESettle] w_active = Some w1 /\
    nav_index (nav w1) = Z.to_nat k /\
    value (translateX (bar w1)) == rest_offset 390 (Qnat 0) /\
    run 390 [ERelease; EFlushJS; EPress 0; ESettle] w_active = Some w2 /\
    nav_index (nav w2) = 0%nat /\
    value (translateX (bar w2)) == rest_offset 390 (Qnat 0).
Proof.
  split; [vm_compute; reflexivity|].
  apply (tap_overtakes_queued_call 390 w_active 0 Routes.index);
    [vm_compute; reflexivity | vm_compute; reflexivity | reflexivity].
Defined.
End QuiesceWitnesses.
