(* ===== verification/Home.v ===== *)
(** * The home screen ([HomeScreen], src/app/(tabs)/index.tsx)

    [HomeScreen] renders a [ThemedView] padded below the top safe-area
    inset, holding an [Animated.ScrollView] whose content is padded at
    the bottom by [useBottomTabOverflow()], and a header with the title
    ["Translate"].  [HomeView] is what the component computes: the style
    values and props it passes down; [HomeScreen] takes the two hook
    results it reads ([useSafeAreaInsets()] and [useBottomTabOverflow()],
    whose module is not part of the repository) as arguments.

    The screen is the scene of the [index] route, and the capsule bar
    floats over it: the bar is absolutely positioned, so the scene still
    runs to the window's bottom edge, and the bar covers the 91 points
    above the window's bottom edge less 30 ([styles.container]: [bottom:
    30], [height: 61]).  [last_line_bottom] is where the end of the
    scroll content sits when scrolled as far as it goes. *)

From Stdlib Require Import String QArith Lqa List.
From S2P Require Import Prelude Animation CapsuleBar Layout.
Local Open Scope Q_scope.

Module Home.

(** [useSafeAreaInsets()]. *)
Record EdgeInsets := mkInsets { top : Q; right : Q; bottom : Q; left : Q }.

(** [styles.header]. *)
Record HeaderStyle := mkHeader { paddingLeft : Q; paddingRight : Q }.

Definition styles_header : HeaderStyle := mkHeader 32 20.

(** [container.content]. *)
Record ContentStyle := mkContent { content_flex : Q; content_gap : Q; overflow_hidden : bool }.

Record ContainerSheet := mkContainerSheet {
  container_flex : Q;
  content : ContentStyle
}.

Definition container : ContainerSheet :=
  {| container_flex := 1; content := mkContent 1 16 true |}.

(** The props and styles the screen renders.  The outer [ThemedView]'s
    style array [[{ paddingTop: insets.top + 17 }, container.container]]
    flattens to both entries, the second setting only [flex]. *)
Record HomeView := mkHome {
  root_paddingTop : Q;
  root_flex : Q;
  scrollEventThrottle : Q;
  scrollIndicatorInsets_bottom : Q;
  contentContainer_paddingBottom : Q;
  content_style : ContentStyle;
  header_style : HeaderStyle;
  header_text_type : string;
  header_text : string
}.

Definition HomeScreen (insets : EdgeInsets) (bottom : Q) : HomeView :=
  {| root_paddingTop := top insets + 17;
     root_flex := container_flex container;
     scrollEventThrottle := 16;
     scrollIndicatorInsets_bottom := bottom;
     contentContainer_paddingBottom := bottom;
     content_style := content container;
     header_style := styles_header;
     header_text_type := "title";
     header_text := "Translate" |}.

Section Geometry.
(** The window's height, and the height of the scroll content above its
    bottom padding. *)
Context (window_height content_height : Q).

(** Scrolled to the end, the last line of the content ends at its own
    height below the padding top, or, when content and padding exceed the
    viewport, at the bottom padding above the viewport's end. *)
Definition last_line_bottom (v : HomeView) : Q :=
  Math_min (root_paddingTop v + content_height)
           (window_height - contentContainer_paddingBottom v).

(** The top edge of the floating bar. *)
Definition bar_top : Q :=
  let c := Styles.container Styles.styles in
  window_height - Styles.c_bottom c - Styles.c_height c.

End Geometry.
End Home.

Module HomeFacts.
Import Home.

(** C15 The floating bar and the home screen's scroll content: scrolled
    to the end, the content's last line is clear of the bar exactly when
    the content fits above the bar anyway or the bottom padding the
    screen takes from [useBottomTabOverflow()] is at least the bar's 91
    points (its 61-point height and 30-point offset).  With a smaller
    value, content that fills the screen ends under the bar whatever the
    safe-area insets are. *)
Theorem home_content_clear_of_bar_iff (H h : Q) (insets : EdgeInsets) (bottom : Q) :
  last_line_bottom H h (HomeScreen insets bottom) <= bar_top H <->
  top insets + 17 + h <= H - 91 \/ 91 <= bottom.
Proof.
  unfold last_line_bottom, bar_top, HomeScreen; cbn.
  split.
  - intros L. qminmax. lra.
  - intros [F|B]; qminmax; lra.
Qed.

End HomeFacts.
