(* ===== verification/Refinement.v ===== *)
(** * The bar refines the specification's tap-and-drag contract

    Section 4.1 of the specification describes the bar abstractly: an
    active tab and a capsule offset, initialised from the active index
    at mount; a tap on tab [i] selects [i] and moves the capsule to
    [i]'s resting position; a drag adds the cumulative translation to
    the offset captured at its start, clamped to the row, and on release
    selects the nearest slot (ties away from zero, clamped) and moves the
    capsule to its resting position.  [BarSpec] is that contract as a
    state machine over [SpecState], with the code's resting offset
    [(i * TAB_WIDTH) / 1.1] (the specification keeps the divisor as the
    code has it).  [events] turns each interaction into the events of
    [System.run] that carry it out, followed by the JavaScript thread
    running the queued calls and the animations finishing.  The theorem
    [bar_refines_spec] is a forward simulation: every run of the contract
    is matched by a run of the model of the code, in which the navigator,
    the capsule and the scales are where the contract says. *)

From Stdlib Require Import String QArith Qround Lqa Lia ZArith List.
From S2P Require Import Prelude Colors Tabs Navigation Animation CapsuleBar Gesture.
Import ListNotations Reanimated Capsule System.
Local Open Scope Q_scope.

Module BarSpec.
Section WithScreen.
Context (SCREEN_WIDTH : Q).

Local Abbreviation W := (TAB_WIDTH SCREEN_WIDTH).

(** A complete interaction with the bar. *)
Inductive Interaction := Tap (i : nat) | Drag (translations : list Q).

Record SpecState := mkSpec { selected : nat; offset : Q }.

Definition spec_init (i : nat) : SpecState := mkSpec i (Qnat i * W).

(** The offset at the end of a drag: the last translation added to the
    start offset and clamped to the row; the start offset when the pan
    never moved. *)
Definition drag_offset (start : Q) (translations : list Q) : Q :=
  fold_left (fun _ t => clampQ 0 (3 * W) (start + t)) translations start.

Definition spec_select (o : Q) : Z := clampZ 0 3 (round_half_away (o / W)).

(** A tap on a tab that does not exist is not an interaction. *)
Definition spec_step (a : SpecState) (x : Interaction) : option SpecState :=
  match x with
  | Tap i => if Nat.ltb i 4 then Some (mkSpec i (rest_offset SCREEN_WIDTH (Qnat i))) else None
  | Drag ts =>
      let k := spec_select (drag_offset (offset a) ts) in
      Some (mkSpec (Z.to_nat k) (rest_offset SCREEN_WIDTH (inject_Z k)))
  end.

Fixpoint spec_run (xs : list Interaction) (a : SpecState) : option SpecState :=
  match xs with
  | [] => Some a
  | x :: xs' => match spec_step a x with Some a' => spec_run xs' a' | None => None end
  end.

Definition events_of (x : Interaction) : list Event :=
  match x with
  | Tap i => [EPress i; EFlushJS; ESettle]
  | Drag ts => ETouch :: EActivate :: map EMove ts ++ [ERelease; EFlushJS; ESettle]
  end.

Definition events (xs : list Interaction) : list Event := flat_map events_of xs.

(** A world at rest that matches a state of the contract. *)
Definition refines {NS : Type} `{Nav.Navigator NS} (a : SpecState) (w : World) : Prop :=
  Nav.nav_index (nav w) = selected a /\
  value (translateX (bar w)) == offset a /\ 0 <= offset a /\
  value (capsuleScaleX (bar w)) == 1 /\ value (capsuleScaleY (bar w)) == 1 /\
  isDragging (bar w) = false /\
  running (translateX (bar w)) = [] /\
  running (capsuleScaleX (bar w)) = [] /\ running (capsuleScaleY (bar w)) = [] /\
  Nav.nav_routeNames (nav w) = Routes.layout_routes /\
  phase w = Idle /\ js_queue w = [].

End WithScreen.
End BarSpec.

Module BarSpecFacts.
Import BarSpec.

(** Running a concatenation of event lists. *)
Lemma run_app (SCREEN_WIDTH : Q) {NS : Type} `{Nav.Navigator NS} (es1 es2 : list Event) (w : World) :
  run SCREEN_WIDTH (es1 ++ es2) w =
  match run SCREEN_WIDTH es1 w with Some w1 => run SCREEN_WIDTH es2 w1 | None => None end.
Proof.
  revert w. induction es1 as [|e es1 IH]; intros w; [reflexivity|].
  cbn. destruct (exec SCREEN_WIDTH e w); [apply IH | reflexivity].
Qed.

(** The drag fold reads its start offset and its initial value up to [==]. *)
Lemma drag_fold_proper (M s s' x x' : Q) (ts : list Q) :
  s == s' -> x == x' ->
  fold_left (fun _ t => clampQ 0 M (s + t)) ts x ==
  fold_left (fun _ t => clampQ 0 M (s' + t)) ts x'.
Proof.
  intros Es. revert x x'. induction ts as [|t ts IH]; intros x x' Ex; cbn; [exact Ex|].
  apply IH. unfold clampQ. now rewrite Es.
Qed.

Section WithWidth.
Context (SCREEN_WIDTH : Q) (Hwidth : 16 < SCREEN_WIDTH).

Local Abbreviation W := (TAB_WIDTH SCREEN_WIDTH).

Lemma drag_offset_nonneg (start : Q) (ts : list Q) :
  0 <= start -> 0 <= drag_offset SCREEN_WIDTH start ts.
Proof.
  pose proof (CapsuleFacts.TAB_WIDTH_pos _ Hwidth). unfold drag_offset.
  intros Hs. destruct ts as [|t ts] using rev_ind; [exact Hs|].
  rewrite fold_left_app. cbn. apply clampQ_bounds. lra.
Qed.

(** Moves of an active pan change the offset only, to the clamped sum of
    the start offset and the last translation. *)
Lemma run_moves_value {NS : Type} `{Nav.Navigator NS} (ts : list Q) (b : BarState) (n : NS)
  (q : list JSCall) :
  exists b', run SCREEN_WIDTH (map EMove ts) (mkWorld b n Active q) = Some (mkWorld b' n Active q) /\
    startX b' = startX b /\ capsuleScaleX b' = capsuleScaleX b /\
    capsuleScaleY b' = capsuleScaleY b /\ isDragging b' = isDragging b /\
    value (translateX b') ==
      fold_left (fun _ t => clampQ 0 (3 * W) (value (startX b) + t)) ts (value (translateX b)).
Proof.
  revert b. induction ts as [|t ts IH]; intros b; [exists b; split_conj; reflexivity|].
  destruct (IH (onUpdate SCREEN_WIDTH t b)) as (b' & Hr & Hs & Hx & Hy & Hd & Hv).
  exists b'. cbn [map run exec phase bar nav js_queue]. rewrite Hr. cbn in Hs, Hx, Hy, Hd.
  split_conj; auto.
Qed.

Section Simulation.
Context {NS : Type} `{Nav.NavigatorLaws NS}.

Local Abbreviation refines := (refines (NS := NS)).

(** The first slots of [TABS] are its four tabs. *)
Lemma TABS_lt (i : nat) : Nat.ltb i 4 = true -> exists t, nth_error Routes.TABS i = Some t.
Proof. intros Hi. apply Nat.ltb_lt in Hi. destruct i as [|[|[|[|i]]]]; eauto; lia. Qed.

Lemma tap_refines (a a' : SpecState) (w : World) (i : nat) :
  refines a w -> spec_step SCREEN_WIDTH a (Tap i) = Some a' ->
  exists w', run SCREEN_WIDTH (events_of (Tap i)) w = Some w' /\ refines a' w'.
Proof.
  intros (Hn & Hx & Ho & Hsx & Hsy & Hd & Rx & Rsx & Rsy & Hr & Hp & Hq) Hs.
  unfold spec_step in Hs. destruct (Nat.ltb i 4) eqn:Hi; [|discriminate]. injection Hs as <-.
  destruct (TABS_lt i Hi) as (t & Ht). apply Nat.ltb_lt in Hi.
  destruct w as [b n p q]; cbn in *; subst p q.
  destruct (NavFacts.navigate_TABS n i t Hr Ht) as [Hi' Hr'].
  cbn [events_of run exec phase bar nav js_queue]. rewrite Ht. eexists. split; [reflexivity|].
  unfold refines. cbn -[Qeq rest_offset]. split_conj; auto; try reflexivity.
  apply (CapsuleFacts.rest_offset_in_row _ Hwidth).
  split; [apply Qnat_nonneg | apply (Qnat_le _ 3); lia].
Qed.

Lemma drag_refines (a a' : SpecState) (w : World) (ts : list Q) :
  refines a w -> spec_step SCREEN_WIDTH a (Drag ts) = Some a' ->
  exists w', run SCREEN_WIDTH (events_of (Drag ts)) w = Some w' /\ refines a' w'.
Proof.
  intros (Hn & Hx & Ho & Hsx & Hsy & Hd & Rx & Rsx & Rsy & Hr & Hp & Hq) Hs.
  cbn in Hs. injection Hs as <-. destruct w as [b n p q]; cbn in *; subst p q.
  destruct (run_moves_value ts (onStart (onBegin b)) n [])
    as (b' & Hm & Hst & Hsx' & Hsy' & Hd' & Hv).
  cbn [events_of run exec phase bar nav js_queue]. rewrite run_app, Hm.
  destruct (CapsuleFacts.onEnd_eq SCREEN_WIDTH b') as (t & Et & E).
  cbn [run exec phase bar nav js_queue]. rewrite E.
  assert (Hk : snap_index SCREEN_WIDTH (value (translateX b')) =
               spec_select SCREEN_WIDTH (drag_offset SCREEN_WIDTH (offset a) ts)).
  { rewrite (CapsuleFacts.snap_index_Proper SCREEN_WIDTH _ _ Hv).
    cbn in Hv |- *. unfold spec_select, drag_offset.
    rewrite (CapsuleFacts.snap_index_Proper SCREEN_WIDTH _ _
               (drag_fold_proper _ _ (offset a) _ (offset a) ts Hx Hx)).
    apply CapsuleFacts.snap_index_half_away; [exact Hwidth|].
    now apply drag_offset_nonneg. }
  destruct (NavFacts.navigate_TABS n _ t Hr Et) as [Hi' Hr'].
  eexists. split; [reflexivity|]. unfold refines. rewrite Hk in Hi', Et |- *.
  cbn -[Qeq rest_offset snap_index spec_select]. split_conj; auto; try reflexivity.
  apply (CapsuleFacts.rest_offset_in_row _ Hwidth).
  pose proof (clampZ_bounds 0 3 (round_half_away (drag_offset SCREEN_WIDTH (offset a) ts / W))).
  split; [apply (inject_Z_le 0) | apply (inject_Z_le _ 3)]; unfold spec_select; lia.
Qed.
Lemma step_refines (a a' : SpecState) (w : World) (x : Interaction) :
  refines a w -> spec_step SCREEN_WIDTH a x = Some a' ->
  exists w', run SCREEN_WIDTH (events_of x) w = Some w' /\ refines a' w'.
Proof. destruct x; [apply tap_refines | apply drag_refines]. Qed.

Lemma run_refines (xs : list Interaction) (a a' : SpecState) (w : World) :
  refines a w -> spec_run SCREEN_WIDTH xs a = Some a' ->
  exists w', run SCREEN_WIDTH (events xs) w = Some w' /\ refines a' w'.
Proof.
  revert a w. induction xs as [|x xs IH]; intros a w Hw Hs; cbn in Hs.
  - injection Hs as <-. now exists w.
  - destruct (spec_step SCREEN_WIDTH a x) as [a1|] eqn:E; [|discriminate].
    destruct (step_refines a a1 w x Hw E) as (w1 & Hr1 & Hw1).
    unfold events. cbn [flat_map]. rewrite run_app, Hr1. now apply IH with a1.
Qed.

Lemma init_refines (nav0 : NS) :
  Nav.nav_routeNames nav0 = Routes.layout_routes ->
  refines (spec_init SCREEN_WIDTH (Nav.nav_index nav0)) (init SCREEN_WIDTH nav0).
Proof.
  pose proof (CapsuleFacts.TAB_WIDTH_pos _ Hwidth). intros Hr.
  pose proof (Qnat_nonneg (Nav.nav_index nav0)).
  unfold refines, init, mount. cbn -[Qeq]. split_conj; auto; try reflexivity.
  now apply Qmult_le_0_compat; [|apply Qlt_le_weak].
Qed.

(** C17 Refinement of the specification's contract: for every sequence
    of taps and drags the contract of section 4.1 accepts from the tab
    the navigator shows at mount, the model of the code, mounted under
    that navigator, runs the same interactions (each followed by the
    queued calls and the animations completing) and ends in a world
    that matches the contract's end state: the navigator on the
    contract's tab, the capsule at rest at its offset, both scales at 1,
    [isDragging] cleared and nothing pending. *)
Theorem bar_refines_spec (nav0 : NS) (xs : list Interaction) (a' : SpecState) :
  Nav.nav_routeNames nav0 = Routes.layout_routes ->
  spec_run SCREEN_WIDTH xs (spec_init SCREEN_WIDTH (Nav.nav_index nav0)) = Some a' ->
  exists w', run SCREEN_WIDTH (events xs) (init SCREEN_WIDTH nav0) = Some w' /\ refines a' w'.
Proof. intros Hr Hs. exact (run_refines xs _ a' _ (init_refines nav0 Hr) Hs). Qed.
End Simulation.

End WithWidth.
End BarSpecFacts.

Module BarSpecWitnesses.
Import BarSpec BarSpecFacts Nav.

(** Drag from the first tab by 100 then 150 points, tap the last tab,
    then drag 500 points left: the contract ends on the first tab. *)
Definition session : list Interaction := [Drag [100; 150]; Tap 3; Drag [-500]].

Definition session_end : SpecState :=
  match spec_run 390 session (spec_init 390 0) with Some a => a | None => spec_init 390 0 end.

Lemma bar_refines_spec_witness :
  spec_run 390 session (spec_init 390 0) = Some session_end /\ selected session_end = 0%nat /\
  exists w', run 390 (events session) (init 390 (layout_navigator 0)) = Some w' /\
             refines session_end w'.
Proof.
  split; [vm_compute; reflexivity|]. split; [vm_compute; reflexivity|].
  apply (bar_refines_spec 390 ltac:(lra) (layout_navigator 0)); [reflexivity|].
  vm_compute. reflexivity.
Defined.
End BarSpecWitnesses.
