(* ===== verification/Doubles.v ===== *)
(** * The slot arithmetic in double precision

    The rest of the development computes with exact rationals.  The code
    computes with JavaScript numbers, IEEE binary64 doubles: every [+],
    [-], [*] and [/] of [TAB_WIDTH], [onUpdate], [onEnd] and [onPress]
    rounds to the nearest double, and the literal [1.1] is the double
    nearest to 11/10.  This file restates that arithmetic on Rocq's
    primitive floats, which implement binary64, and checks by evaluation
    that on the window widths of common phones (whole and fractional,
    as Android reports them) the double computation selects the same
    slot as the rational model on every whole-point offset of the row,
    and gives back slot [i] from [i]'s resting offset. *)

From Stdlib Require Import Floats ZArith QArith Qround List.
From S2P Require Import Prelude CapsuleBar.
Import ListNotations.
Local Set Warnings "-inexact-float".

Module JS.

(** The exact value of a finite double (infinities and NaN, which the
    bar's arithmetic never produces from a positive width, read as 0). *)
Definition to_Q (x : float) : Q :=
  match Prim2SF x with
  | S754_finite s m e =>
      let q := (if (0 <=? e)%Z then inject_Z (Z.pos m * 2 ^ e) else Z.pos m # (2 ^ Z.to_pos (- e)))%Z in
      if s then Qopp q else q
  | _ => 0
  end.

(** [Math.round]: the integer nearest to the argument's exact value, ties
    towards +infinity. *)
Definition Math_round (x : float) : Z := Prelude.Math_round (to_Q x).

Definition Math_min (a b : float) : float := if PrimFloat.ltb b a then b else a.
Definition Math_max (a b : float) : float := if PrimFloat.ltb a b then b else a.

Definition CONTAINER_PADDING : float := 8.
Definition TABS_length : float := 4.

Definition TAB_WIDTH (SCREEN_WIDTH : float) : float :=
  ((SCREEN_WIDTH - CONTAINER_PADDING * 2) / TABS_length)%float.

(** [onUpdate]'s new offset. *)
Definition onUpdate_x (SCREEN_WIDTH startX translationX : float) : float :=
  let newX := (startX + translationX)%float in
  let minX := 0%float in
  let maxX := ((TABS_length - 1) * TAB_WIDTH SCREEN_WIDTH)%float in
  Math_min (Math_max newX minX) maxX.

(** [onEnd]'s [clampedIndex]. *)
Definition snap_index (SCREEN_WIDTH x : float) : Z :=
  let index := Math_round (x / TAB_WIDTH SCREEN_WIDTH)%float in
  Z.max 0 (Z.min (4 - 1) index).

(** [(i * TAB_WIDTH) / 1.1]. *)
Definition rest_offset (SCREEN_WIDTH i : float) : float :=
  ((i * TAB_WIDTH SCREEN_WIDTH) / 1.1)%float.

End JS.

Module DoublesCheck.

(** Window widths in points: iPhone SE, 12/13/14, 14 Pro/15, Plus and Pro
    Max models; Android 360 and 412 and the fractional widths of
    1080-pixel screens at densities 2.75 and 2.625. *)
Definition common_widths : list float :=
  [320; 360; 375; 390; 393; 412; 414; 428; 430;
   392.72727272727275; 411.42857142857144]%float.

Definition of_nat (n : nat) : float := PrimFloat.of_uint63 (Uint63.of_Z (Z.of_nat n)).

(** Every whole-point offset from 0 to the end of the row. *)
Definition row_offsets (w : float) : list nat :=
  seq 0 (S (Z.to_nat (Qfloor (3 * JS.to_Q (JS.TAB_WIDTH w))))).

Definition slots_agree (w : float) : bool :=
  forallb (fun n => Z.eqb (JS.snap_index w (of_nat n))
                          (Capsule.snap_index (JS.to_Q w) (Qnat n)))
          (row_offsets w).

Definition rests_stable (w : float) : bool :=
  forallb (fun i => Z.eqb (JS.snap_index w (JS.rest_offset w (of_nat i))) (Z.of_nat i))
          (seq 0 4).

(** A drag far past either end of the row pins the capsule there and
    selects the end slot. *)
Definition clamp_ends (w : float) : bool :=
  Z.eqb (JS.snap_index w (JS.onUpdate_x w 0 10000)) 3 &&
  Z.eqb (JS.snap_index w (JS.onUpdate_x w 0 (-10000))) 0.

(** Adequacy of the rational model, checked on the doubles: on every
    common phone width, the slot [onEnd] selects computed in doubles is
    the rational model's slot at every whole-point offset of the row;
    in doubles too, the resting offset of each of the four slots, with
    the double nearest to 1.1, selects that slot again; and a drag past
    either end of the row selects the end slot. *)
Theorem doubles_agree_on_common_widths :
  forallb (fun w => slots_agree w && rests_stable w && clamp_ends w) common_widths = true.
Proof. vm_compute. reflexivity. Qed.

End DoublesCheck.
